(** * Attention from scratch: causal averaging and one self-attention head

    A shallow embedding of the code cells of [attention-from-scratch.ipynb].

    A tensor is a nested list, outermost dimension first: a [(T, C)] tensor
    is a list of [T] rows of [C] entries, a [(B, T, C)] tensor a list of [B]
    such matrices.  Entries are real numbers: the arithmetic of the notebook
    is modelled exactly, without the rounding of 32-bit floats.  The only
    non-finite value the notebook creates is the [float('-inf')] handed to
    [masked_fill]; scores that may hold it have type [xreal].

    Exact results stand for the float results only while no intermediate
    value leaves the range of 32-bit floats.  Statements that depend on it
    carry the bounds [bounded3], [sums_in_range] and [head_in_range] as
    hypotheses, and module [F32] runs the same cells on binary32 values to
    show what happens beyond the range: a sum that overflows to infinity,
    and [0 * inf = nan] in the product with the values.

    A matrix without rows records no column count, so a few statements ask
    for a positive dimension. *)

From Stdlib Require Import Reals List Arith ZArith Bool Lia Lra.
From Stdlib Require Import Floats.SpecFloat.
Import ListNotations.
Open Scope R_scope.

Abbreviation vec := (list R).
Abbreviation matrix := (list (list R)).
Abbreviation tensor3 := (list (list (list R))).

(** A score before softmax: a real number or [float('-inf')]. *)
Inductive xreal : Type :=
| Fin (r : R)
| NegInf.

Abbreviation xvec := (list xreal).
Abbreviation xmatrix := (list (list xreal)).
Abbreviation xtensor3 := (list (list (list xreal))).

(** Shapes, as [x.shape] reports them. *)
Definition shape1 {A : Type} (m : nat) (r : list A) : Prop := length r = m.
Definition shape2 {A : Type} (n m : nat) (X : list (list A)) : Prop :=
  length X = n /\ Forall (shape1 m) X.
Definition shape3 {A : Type} (B n m : nat) (x : list (list (list A))) : Prop :=
  length x = B /\ Forall (shape2 n m) x.

(** Sum of [f 0 .. f (n-1)], used to state results entry by entry. *)
Fixpoint bigsum (f : nat -> R) (n : nat) : R :=
  match n with
  | O => 0
  | S n' => bigsum f n' + f n'
  end.

(** ** The tensor operations the notebook calls *)
Module Torch.

(** [torch.zeros(n, m)], [torch.ones(n, m)], [torch.zeros(B, n, m)]. *)
Definition full (a : R) (n m : nat) : matrix := repeat (repeat a m) n.
Definition zeros (n m : nat) : matrix := full 0 n m.
Definition ones (n m : nat) : matrix := full 1 n m.
Definition zeros3 (B n m : nat) : tensor3 := repeat (zeros n m) B.

(** Map with the index of each element. *)
Fixpoint imap_from {A B : Type} (i : nat) (f : nat -> A -> B) (l : list A)
  : list B :=
  match l with
  | [] => []
  | a :: l' => f i a :: imap_from (S i) f l'
  end.
Definition imap {A B : Type} (f : nat -> A -> B) (l : list A) : list B :=
  imap_from 0 f l.

(** Element-wise combination of two lists of the same length. *)
Definition zip_with {A B C : Type} (f : A -> B -> C)
           (l : list A) (l' : list B) : list C :=
  map (fun p => f (fst p) (snd p)) (combine l l').

(** [torch.tril(m)]: entries on and below the main diagonal are kept,
    the others become zero. *)
Definition tril (m : matrix) : matrix :=
  imap (fun i row => imap (fun j a => if (j <=? i)%nat then a else 0) row) m.

Definition sumR (l : vec) : R := fold_right Rplus 0 l.

(** [m.sum(dim=1, keepdim=True)]: an [(n, 1)] column of row sums. *)
Definition sum_dim1_keepdim (m : matrix) : matrix :=
  map (fun row => [sumR row]) m.

(** [m / s] for [m] of shape [(n, k)] and [s] of shape [(n, 1)]: the
    column [s] is broadcast across the columns of [m]. *)
Definition div_col (m s : matrix) : matrix :=
  zip_with (fun row srow => map (fun a => a / nth 0 srow 0) row) m s.

Definition column (c : nat) (m : matrix) : vec :=
  map (fun row => nth c row 0) m.
Definition ncols (m : matrix) : nat := length (hd [] m).

(** [torch.mean(m, dim=0)]: the mean of the rows, channel by channel. *)
Definition sum_dim0 (m : matrix) : vec :=
  map (fun c => sumR (column c m)) (seq 0 (ncols m)).
Definition mean_dim0 (m : matrix) : vec :=
  map (fun s => s / INR (length m)) (sum_dim0 m).

(** [m.transpose(-1, -2)] on a matrix, and on each matrix of a batch. *)
Definition transpose (m : matrix) : matrix :=
  map (fun c => column c m) (seq 0 (ncols m)).
Definition transpose3 (x : tensor3) : tensor3 := map transpose x.

Definition dot (u w : vec) : R := sumR (zip_with Rmult u w).

(** [a @ m] for two matrices. *)
Definition matmul (a m : matrix) : matrix :=
  map (fun row => map (fun c => dot row (column c m)) (seq 0 (ncols m))) a.

(** [a @ x] with the matrix [a] broadcast over the batch of [x]. *)
Definition matmul_bcast (a : matrix) (x : tensor3) : tensor3 :=
  map (matmul a) x.

(** [a @ x] for two batches: one product per batch element. *)
Definition bmm (a x : tensor3) : tensor3 := zip_with matmul a x.

(** [x * c] for a scalar [c]. *)
Definition mul_scalar (x : tensor3) (c : R) : tensor3 :=
  map (map (map (fun a => a * c))) x.
Definition mul_scalar2 (m : matrix) (c : R) : matrix :=
  map (map (fun a => a * c)) m.

(** [m == 0], a Boolean mask. *)
Definition eq_zero (m : matrix) : list (list bool) :=
  map (map (fun a => if Req_dec_T a 0 then true else false)) m.

(** [m.masked_fill(mask, value)]: [value] where the mask holds, the entry
    of [m] elsewhere; on a batch the mask is broadcast. *)
Definition masked_fill (m : matrix) (mask : list (list bool)) (value : xreal)
  : xmatrix :=
  zip_with (zip_with (fun a (b : bool) => if b then value else Fin a)) m mask.
Definition masked_fill3 (x : tensor3) (mask : list (list bool))
           (value : xreal) : xtensor3 :=
  map (fun m => masked_fill m mask value) x.

(** [exp], with [exp(-inf) = 0]. *)
Definition xexp (s : xreal) : R :=
  match s with
  | Fin r => exp r
  | NegInf => 0
  end.

(** [softmax] over the last dimension: each row is exponentiated and
    divided by its sum.  (The library subtracts the maximum of the row
    first, which changes nothing in exact arithmetic.  A row without any
    finite score does not occur under the causal mask, which keeps the
    diagonal.) *)
Definition softmax_row (r : xvec) : vec :=
  let e := map xexp r in map (fun a => a / sumR e) e.
Definition softmax (m : xmatrix) : matrix := map softmax_row m.
Definition softmax3 (x : xtensor3) : tensor3 := map softmax x.

(** [nn.Linear(C, head_size, bias=False)] with weight [w] of shape
    [(head_size, C)], applied to a batch: [x @ w.T]. *)
Definition linear (w : matrix) (x : tensor3) : tensor3 :=
  map (fun xb => matmul xb (transpose w)) x.

(** In-place update of one element of a list. *)
Fixpoint update {A : Type} (n : nat) (f : A -> A) (l : list A) : list A :=
  match l, n with
  | [], _ => []
  | a :: l', O => f a :: l'
  | a :: l', S n' => a :: update n' f l'
  end.

(** [out[b, t] = row]: the indices are in range wherever the notebook
    assigns (an index out of range raises in Python; here the tensor is
    left as it is). *)
Definition setitem (out : tensor3) (b t : nat) (row : vec) : tensor3 :=
  update b (update t (fun _ => row)) out.

End Torch.

(** ** Version 1: nested loops *)
Module Version1.

(** The body of the inner loop, on the tensor [xbow1] built so far. *)
Definition body (x : tensor3) (b : nat) (xbow1 : tensor3) (t : nat)
  : tensor3 :=
  let xprev := firstn (t + 1) (nth b x []) in
  let xprev_mean := Torch.mean_dim0 xprev in
  Torch.setitem xbow1 b t xprev_mean.

Definition xbow1 (B T C : nat) (x : tensor3) : tensor3 :=
  fold_left (fun xbow1 b => fold_left (body x b) (seq 0 T) xbow1)
            (seq 0 B) (Torch.zeros3 B T C).

End Version1.

(** ** Version 2: lower-triangular matrix multiply *)
Module Version2.

Definition wei (T : nat) : matrix :=
  let wei := Torch.tril (Torch.ones T T) in
  Torch.div_col wei (Torch.sum_dim1_keepdim wei).

Definition xbow2 (T : nat) (x : tensor3) : tensor3 :=
  Torch.matmul_bcast (wei T) x.

End Version2.

(** ** Version 3: masked softmax *)
Module Version3.

Definition tril (T : nat) : matrix := Torch.tril (Torch.ones T T).

(** [wei] after [masked_fill], as printed "before softmax". *)
Definition wei_masked (T : nat) : xmatrix :=
  let wei := Torch.zeros T T in
  Torch.masked_fill wei (Torch.eq_zero (tril T)) NegInf.

Definition wei (T : nat) : matrix := Torch.softmax (wei_masked T).

Definition xbow3 (T : nat) (x : tensor3) : tensor3 :=
  Torch.matmul_bcast (wei T) x.

End Version3.

(** ** Version 4: one head of self-attention *)
Module Version4.

(** The weights of the three bias-free linear layers, each of shape
    [(head_size, C)]. *)
Record head : Type := {
  head_size : nat;
  query : matrix;
  key : matrix;
  value : matrix
}.

Definition head_shape (C : nat) (h : head) : Prop :=
  shape2 (head_size h) C (query h) /\
  shape2 (head_size h) C (key h) /\
  shape2 (head_size h) C (value h).

Definition q (h : head) (x : tensor3) : tensor3 := Torch.linear (query h) x.
Definition k (h : head) (x : tensor3) : tensor3 := Torch.linear (key h) x.
Definition v (h : head) (x : tensor3) : tensor3 := Torch.linear (value h) x.

(** [head_size**-0.5]. *)
Definition scale (h : head) : R := Rpower (INR (head_size h)) (- 0.5).

Definition tril (T : nat) : matrix := Torch.tril (Torch.ones T T).

(** The three successive values of the variable [wei]. *)
Definition wei_scaled (h : head) (x : tensor3) : tensor3 :=
  Torch.mul_scalar (Torch.bmm (q h x) (Torch.transpose3 (k h x))) (scale h).

Definition wei_masked (h : head) (T : nat) (x : tensor3) : xtensor3 :=
  let wei := wei_scaled h x in
  Torch.masked_fill3 wei (Torch.eq_zero (tril T)) NegInf.

Definition wei (h : head) (T : nat) (x : tensor3) : tensor3 :=
  let wei := wei_masked h T x in
  Torch.softmax3 wei.

Definition out (h : head) (T : nat) (x : tensor3) : tensor3 :=
  Torch.bmm (wei h T x) (v h x).

End Version4.

(** ** Closed forms used in the statements *)

(** A row of length [T] holding [a] at the positions [0 .. t] and zero at
    the later ones. *)
Definition causal_row (a : R) (T t : nat) : vec :=
  repeat a (S t) ++ repeat 0 (T - S t).

(** Softmax of a row of finite scores. *)
Definition softmax_fin (l : vec) : vec :=
  map (fun a => exp a / Torch.sumR (map exp l)) l.

(** ** Version 4 on one batch element *)

(** The linear layer on one [(T, C)] matrix. *)
Definition lin1 (w xb : matrix) : matrix := Torch.matmul xb (Torch.transpose w).

(** The causal mask as [masked_fill] receives it. *)
Definition causal_mask (T : nat) : list (list bool) :=
  Torch.eq_zero (Torch.tril (Torch.ones T T)).

(** Scaled scores, weights and output of the head for one batch element. *)
Definition head_scores (h : Version4.head) (xb : matrix) : matrix :=
  Torch.mul_scalar2
    (Torch.matmul (lin1 (Version4.query h) xb)
                  (Torch.transpose (lin1 (Version4.key h) xb)))
    (Version4.scale h).

Definition head_weights (h : Version4.head) (T : nat) (xb : matrix) : matrix :=
  Torch.softmax (Torch.masked_fill (head_scores h xb) (causal_mask T) NegInf).

Definition head_out (h : Version4.head) (T : nat) (xb : matrix) : matrix :=
  Torch.matmul (head_weights h T xb) (lin1 (Version4.value h) xb).

(** What position [t] computes from the rows [0 .. t] alone: the scaled
    scores of its query against the keys of the prefix [P], and the
    softmax-weighted sum of the values of the prefix. *)
Definition prefix_scores (h : Version4.head) (t : nat) (P : matrix) : vec :=
  map (fun j => Torch.dot (nth t (lin1 (Version4.query h) P) [])
                          (nth j (lin1 (Version4.key h) P) [])
                * Version4.scale h)
      (seq 0 (S t)).

Definition prefix_out (h : Version4.head) (t : nat) (P : matrix) : vec :=
  map (fun c => Torch.dot (softmax_fin (prefix_scores h t P))
                          (Torch.column c (lin1 (Version4.value h) P)))
      (seq 0 (Torch.ncols (lin1 (Version4.value h) P))).

(** ** Other orders of scaling, masking and softmax

    [weights_mask_softmax_scale] masks the raw scores, applies softmax and
    scales the result; [weights_mask_scale_softmax] masks the raw scores,
    scales the masked scores (minus infinity times a positive factor is
    minus infinity) and applies softmax. *)
Definition weights_mask_softmax_scale (h : Version4.head) (T : nat)
           (x : tensor3) : tensor3 :=
  Torch.mul_scalar
    (Torch.softmax3
       (Torch.masked_fill3
          (Torch.bmm (Version4.q h x) (Torch.transpose3 (Version4.k h x)))
          (causal_mask T) NegInf))
    (Rpower (INR (Version4.head_size h)) (- 0.5)).

Definition xscale (c : R) (s : xreal) : xreal :=
  match s with
  | Fin r => Fin (r * c)
  | NegInf => NegInf
  end.

Definition weights_mask_scale_softmax (h : Version4.head) (T : nat)
           (x : tensor3) : tensor3 :=
  Torch.softmax3
    (map (map (map (xscale (Rpower (INR (Version4.head_size h)) (- 0.5)))))
       (Torch.masked_fill3
          (Torch.bmm (Version4.q h x) (Torch.transpose3 (Version4.k h x)))
          (causal_mask T) NegInf)).

(** ** The range of 32-bit floats

    The entries of the tensors above are exact reals.  The notebook
    computes in 32-bit floats, which round every result and turn a result
    beyond [f32_max] into an infinity.  The predicates below bound the input
    so that every intermediate value of the exact computation stays within
    the range. *)
Definition f32_max : R := 340282346638528859811704183484516925440.

Definition bounded2 (M : R) (m : matrix) : Prop :=
  Forall (Forall (fun a => Rabs a <= M)) m.
Definition bounded3 (M : R) (x : tensor3) : Prop := Forall (bounded2 M) x.

(** Sums of [n] terms of magnitude at most [M] stay in the range. *)
Definition sums_in_range (n : nat) (M : R) : Prop := 2 * (INR n * M) <= f32_max.

(** Input entries of magnitude at most [X] and weights of magnitude at most
    [W] keep the projections (at most [C * X * W]) and the scores (at most
    [head_size * (C * X * W)^2]) in the range. *)
Definition head_in_range (h : Version4.head) (C : nat) (x : tensor3)
           (X W : R) : Prop :=
  bounded3 X x /\
  bounded2 W (Version4.query h) /\
  bounded2 W (Version4.key h) /\
  bounded2 W (Version4.value h) /\
  sums_in_range C (X * W) /\
  sums_in_range (Version4.head_size h) ((INR C * (X * W)) * (INR C * (X * W))).

(** ** The same cells in 32-bit floats

    Binary32 values with the IEEE 754 operations of the standard library:
    round to nearest, overflow to infinity, [0 * inf = nan].  Sums
    accumulate from left to right, starting at zero. *)
Module F32.

Definition prec : Z := 24.
Definition emax : Z := 128.

Definition of_Z (n : Z) : spec_float := binary_normalize prec emax n 0 false.
Definition of_nat (n : nat) : spec_float := of_Z (Z.of_nat n).
Definition zero : spec_float := S754_zero false.
Definition one : spec_float := of_Z 1.
Definition inf : spec_float := S754_infinity false.
Definition neg_inf : spec_float := S754_infinity true.
Definition nan : spec_float := S754_nan.

Definition add : spec_float -> spec_float -> spec_float := SFadd prec emax.
Definition sub : spec_float -> spec_float -> spec_float := SFsub prec emax.
Definition mul : spec_float -> spec_float -> spec_float := SFmul prec emax.
Definition div : spec_float -> spec_float -> spec_float := SFdiv prec emax.

Definition sum (l : list spec_float) : spec_float := fold_left add l zero.

Definition full (a : spec_float) (n m : nat) : list (list spec_float) :=
  repeat (repeat a m) n.
Definition zeros (n m : nat) := full zero n m.
Definition ones (n m : nat) := full one n m.
Definition zeros3 (B n m : nat) := repeat (zeros n m) B.

Definition tril (m : list (list spec_float)) : list (list spec_float) :=
  Torch.imap
    (fun i row => Torch.imap (fun j a => if (j <=? i)%nat then a else zero) row)
    m.

Definition sum_dim1_keepdim (m : list (list spec_float)) :=
  map (fun row => [sum row]) m.
Definition div_col (m s : list (list spec_float)) :=
  Torch.zip_with (fun row srow => map (fun a => div a (nth 0 srow zero)) row)
                 m s.

Definition column (c : nat) (m : list (list spec_float)) :=
  map (fun row => nth c row zero) m.
Definition ncols (m : list (list spec_float)) : nat := length (hd [] m).

Definition mean_dim0 (m : list (list spec_float)) : list spec_float :=
  map (fun c => div (sum (column c m)) (of_nat (length m)))
      (seq 0 (ncols m)).

Definition transpose (m : list (list spec_float)) :=
  map (fun c => column c m) (seq 0 (ncols m)).
Definition dot (u w : list spec_float) : spec_float :=
  sum (Torch.zip_with mul u w).
Definition matmul (a m : list (list spec_float)) :=
  map (fun row => map (fun c => dot row (column c m)) (seq 0 (ncols m))) a.

Definition setitem (out : list (list (list spec_float))) (b t : nat)
           (row : list spec_float) :=
  Torch.update b (Torch.update t (fun _ => row)) out.

(** Version 1. *)
Definition xbow1 (B T C : nat) (x : list (list (list spec_float))) :=
  fold_left
    (fun xbow1 b =>
       fold_left
         (fun xbow1 t =>
            let xprev := firstn (t + 1) (nth b x []) in
            let xprev_mean := mean_dim0 xprev in
            setitem xbow1 b t xprev_mean)
         (seq 0 T) xbow1)
    (seq 0 B) (zeros3 B T C).

(** Version 2. *)
Definition wei2 (T : nat) :=
  let wei := tril (ones T T) in div_col wei (sum_dim1_keepdim wei).
Definition xbow2 (T : nat) (x : list (list (list spec_float))) :=
  map (matmul (wei2 T)) x.

(** [exp] at the arguments where IEEE 754 fixes its result; at the other
    finite arguments the value depends on the rounding of the library and
    is not modelled. *)
Definition exp (a : spec_float) : option spec_float :=
  match a with
  | S754_zero _ => Some one
  | S754_infinity true => Some zero
  | S754_infinity false => Some inf
  | S754_nan => Some nan
  | S754_finite _ _ _ => None
  end.

Fixpoint sequence {A : Type} (l : list (option A)) : option (list A) :=
  match l with
  | [] => Some []
  | Some a :: l' =>
      match sequence l' with
      | Some r => Some (a :: r)
      | None => None
      end
  | None :: _ => None
  end.

Definition max (a b : spec_float) : spec_float := if SFltb a b then b else a.

(** Softmax as the library computes it: the maximum of the row is
    subtracted before [exp]. *)
Definition softmax_row (r : list spec_float) : option (list spec_float) :=
  let m := fold_left max r neg_inf in
  match sequence (map (fun a => exp (sub a m)) r) with
  | Some e => Some (map (fun a => div a (sum e)) e)
  | None => None
  end.
Definition softmax (m : list (list spec_float)) := sequence (map softmax_row m).

Definition eq_zero (m : list (list spec_float)) : list (list bool) :=
  map (map (fun a => SFeqb a zero)) m.
Definition masked_fill (m : list (list spec_float)) (mask : list (list bool))
           (value : spec_float) :=
  Torch.zip_with (Torch.zip_with (fun a (b : bool) => if b then value else a))
                 m mask.

(** Version 3. *)
Definition wei3 (T : nat) :=
  softmax (masked_fill (zeros T T) (eq_zero (tril (ones T T))) neg_inf).
Definition xbow3 (T : nat) (x : list (list (list spec_float))) :=
  option_map (fun wei => map (matmul wei) x) (wei3 T).

(** Version 4; [scale] holds the float value of [head_size**-0.5]. *)
Record head : Type := {
  scale : spec_float;
  query : list (list spec_float);
  key : list (list spec_float);
  value : list (list spec_float)
}.

Definition linear (w : list (list spec_float))
           (x : list (list (list spec_float))) :=
  map (fun xb => matmul xb (transpose w)) x.
Definition q (h : head) x := linear (query h) x.
Definition k (h : head) x := linear (key h) x.
Definition v (h : head) x := linear (value h) x.

Definition wei (h : head) (T : nat) (x : list (list (list spec_float))) :=
  let wei := map (map (map (fun a => mul a (scale h))))
                 (Torch.zip_with matmul (q h x) (map transpose (k h x))) in
  let wei := map (fun m => masked_fill m (eq_zero (tril (ones T T))) neg_inf)
                 wei in
  sequence (map softmax wei).

Definition out (h : head) (T : nat) (x : list (list (list spec_float))) :=
  option_map (fun wei => Torch.zip_with matmul wei (v h x)) (wei h T x).

(** Inputs on which the float results leave the exact ones. *)
Definition big : spec_float := of_Z (3 * 10 ^ 38).
Definition x_big : list (list (list spec_float)) := [ [ [big]; [big] ] ].

Definition x_far : list (list (list spec_float)) :=
  [ [ [one]; [one]; [of_Z (10 ^ 30)] ] ].
Definition x_near : list (list (list spec_float)) :=
  [ [ [one]; [one]; [one] ] ].
Definition head_one : head :=
  {| scale := one; query := [ [zero] ]; key := [ [zero] ];
     value := [ [of_Z (10 ^ 10)] ] |}.

End F32.

(** ** A small input

    A batch of shape [(2, 3, 2)], a second batch that differs from it only
    at the last time step of its first element, and a head of size 2. *)
Definition x_small : tensor3 :=
  [ [ [1; 2]; [3; 4]; [5; 6] ];
    [ [0; 1]; [1; 0]; [2; 2] ] ].

Definition x_small' : tensor3 :=
  [ [ [1; 2]; [3; 4]; [7; 8] ];
    [ [0; 1]; [1; 0]; [2; 2] ] ].

Definition head_small : Version4.head :=
  {| Version4.head_size := 2;
     Version4.query := [ [1; 0]; [0; 1] ];
     Version4.key := [ [1; 1]; [0; 1] ];
     Version4.value := [ [2; 0]; [1; 1] ] |}.

(** ** Further tensor operations, called by the tangents *)
Module TorchMore.




(** [m.sum(1)], with [keepdim=False]: a vector of row sums. *)
Definition sum_dim1 (m : matrix) : vec := map Torch.sumR m.

(** [m / s] for [m] of shape [(n, k)] and [s] of shape [(k)]: the vector
    [s] is broadcast as a row, down the rows of [m]. *)
Definition div_row (m : matrix) (s : vec) : matrix :=
  map (fun row => Torch.zip_with Rdiv row s) m.

(** [torch.stack] of vectors of one length: a matrix with them as rows. *)
Definition stack (rows : list vec) : matrix := rows.

(** [F.softmax(m, dim=1)] on a matrix of finite scores. *)
Definition softmax_real (m : matrix) : matrix :=
  Torch.softmax (map (map Fin) m).

End TorchMore.

(** ** Tangent: the importance of scaled attention *)
Module Scaling.



(** [list(range(1, 6, 1))[::-1]]. *)
Definition scale : list nat := rev (seq 1 5).

(** One row [x * i] per factor [i]. *)
Definition x_scaled (x : vec) : matrix :=
  TorchMore.stack (map (fun i => map (fun a => a * INR i) x) scale).


Definition x_softmaxes (x : vec) : matrix :=
  TorchMore.softmax_real (x_scaled x).

End Scaling.

(** ** Tangent: broadcasting and [keepdim] *)
Module Keepdim.

Definition wei (T : nat) : matrix := Torch.tril (Torch.ones T T).

Definition sum_incorrect (T : nat) : vec := TorchMore.sum_dim1 (wei T).
Definition sum_correct (T : nat) : matrix := Torch.sum_dim1_keepdim (wei T).

(** [wei / sum] with each of the two sums, as the note after the cell
    describes it. *)
Definition wei_incorrect (T : nat) : matrix :=
  TorchMore.div_row (wei T) (sum_incorrect T).
Definition wei_correct (T : nat) : matrix :=
  Torch.div_col (wei T) (sum_correct T).

End Keepdim.

(** * Facts about lists *)
Section ListBasics.
Context {A B : Type}.

Lemma nth_map_in (f : A -> B) (l : list A) (i : nat) (d : B) (d' : A) :
  (i < length l)%nat -> nth i (map f l) d = f (nth i l d').
Proof.
  intros Hi. rewrite (nth_indep _ d (f d')) by (rewrite length_map; exact Hi).
  apply map_nth.
Qed.

Lemma nth_repeat_in (a d : A) (m n : nat) :
  (n < m)%nat -> nth n (repeat a m) d = a.
Proof.
  intros Hn. rewrite (nth_indep _ d a) by (rewrite repeat_length; exact Hn).
  apply nth_repeat.
Qed.

Lemma map_repeat (f : A -> B) (a : A) (n : nat) :
  map f (repeat a n) = repeat (f a) n.
Proof. induction n as [|n IH]; simpl; [reflexivity | now rewrite IH]. Qed.

Lemma firstn_repeat_le (a : A) (n m : nat) :
  (n <= m)%nat -> firstn n (repeat a m) = repeat a n.
Proof.
  revert m. induction n as [|n IH]; intros m Hnm; [reflexivity|].
  destruct m as [|m]; [lia|]. simpl. now rewrite IH by lia.
Qed.

End ListBasics.

Section ListFacts.
Context {A B C : Type}.

Lemma length_imap_from (f : nat -> A -> B) (l : list A) (i : nat) :
  length (Torch.imap_from i f l) = length l.
Proof.
  revert i. induction l as [|a l IH]; intros i; simpl;
    [reflexivity | now rewrite IH].
Qed.

Lemma nth_imap_from (f : nat -> A -> B) (l : list A) (i n : nat)
      (d : B) (d' : A) :
  (n < length l)%nat ->
  nth n (Torch.imap_from i f l) d = f (i + n)%nat (nth n l d').
Proof.
  revert i n. induction l as [|a l IH]; intros i n Hn; simpl in Hn; [lia|].
  destruct n as [|n]; simpl.
  - now rewrite Nat.add_0_r.
  - rewrite IH by lia. f_equal. lia.
Qed.

Lemma imap_repeat (f : nat -> A -> B) (a : A) (n : nat) :
  Torch.imap f (repeat a n) = map (fun j => f j a) (seq 0 n).
Proof.
  apply (nth_ext _ _ (f 0%nat a) (f 0%nat a)).
  - unfold Torch.imap.
    now rewrite length_imap_from, length_map, repeat_length, length_seq.
  - unfold Torch.imap. intros j Hj.
    rewrite length_imap_from, repeat_length in Hj.
    rewrite (nth_imap_from _ _ _ _ _ a) by (now rewrite repeat_length).
    rewrite (nth_map_in _ _ _ _ 0%nat) by (now rewrite length_seq).
    rewrite seq_nth by exact Hj. now rewrite nth_repeat_in.
Qed.

Lemma length_zip_with (f : A -> B -> C) (l : list A) (l' : list B) :
  length l = length l' -> length (Torch.zip_with f l l') = length l.
Proof.
  intros H. unfold Torch.zip_with. rewrite length_map, length_combine. lia.
Qed.

Lemma nth_zip_with (f : A -> B -> C) (l : list A) (l' : list B) (i : nat)
      (d : C) (da : A) (db : B) :
  length l = length l' -> (i < length l)%nat ->
  nth i (Torch.zip_with f l l') d = f (nth i l da) (nth i l' db).
Proof.
  intros H Hi. unfold Torch.zip_with.
  rewrite (nth_map_in _ _ _ _ (da, db)) by (rewrite length_combine; lia).
  now rewrite combine_nth.
Qed.

Lemma zip_with_app (f : A -> B -> C) (l1 l2 : list A) (l1' l2' : list B) :
  length l1 = length l1' ->
  Torch.zip_with f (l1 ++ l2) (l1' ++ l2')
  = Torch.zip_with f l1 l1' ++ Torch.zip_with f l2 l2'.
Proof.
  unfold Torch.zip_with. revert l1'.
  induction l1 as [|a l1 IH]; intros [|b l1'] H; simpl in *;
    try discriminate; [reflexivity|].
  f_equal. apply IH. now injection H.
Qed.

Lemma zip_with_repeat_r (f : A -> B -> C) (l : list A) (b : B) :
  Torch.zip_with f l (repeat b (length l)) = map (fun a => f a b) l.
Proof.
  unfold Torch.zip_with. induction l as [|a l IH]; simpl;
    [reflexivity | now rewrite IH].
Qed.

Lemma zip_with_map_seq (f : A -> B -> C) (g : nat -> A) (h : nat -> B)
      (s n : nat) :
  Torch.zip_with f (map g (seq s n)) (map h (seq s n))
  = map (fun i => f (g i) (h i)) (seq s n).
Proof.
  unfold Torch.zip_with. revert s.
  induction n as [|n IH]; intros s; simpl; [reflexivity | now rewrite IH].
Qed.

Lemma zip_with_map_same {D : Type} (f : A -> B -> C) (g : D -> A)
      (h : D -> B) (l : list D) :
  Torch.zip_with f (map g l) (map h l) = map (fun a => f (g a) (h a)) l.
Proof.
  unfold Torch.zip_with. induction l as [|a l IH]; simpl;
    [reflexivity | now rewrite IH].
Qed.

Lemma list_as_map_seq (l : list A) (d : A) :
  l = map (fun i => nth i l d) (seq 0 (length l)).
Proof.
  apply (nth_ext _ _ d d).
  - now rewrite length_map, length_seq.
  - intros i Hi. rewrite (nth_map_in _ _ _ _ 0%nat) by (now rewrite length_seq).
    now rewrite seq_nth.
Qed.

End ListFacts.

Section UpdateFacts.
Context {A : Type}.

Lemma length_update (n : nat) (f : A -> A) (l : list A) :
  length (Torch.update n f l) = length l.
Proof.
  revert n. induction l as [|a l IH]; intros [|n]; simpl; auto.
Qed.

Lemma update_ext (n : nat) (f g : A -> A) (l : list A) :
  (forall a, f a = g a) -> Torch.update n f l = Torch.update n g l.
Proof.
  intros H. revert n. induction l as [|a l IH]; intros [|n]; simpl;
    try reflexivity; [now rewrite H | now rewrite IH].
Qed.

Lemma update_update (n : nat) (f g : A -> A) (l : list A) :
  Torch.update n f (Torch.update n g l)
  = Torch.update n (fun a => f (g a)) l.
Proof.
  revert n. induction l as [|a l IH]; intros [|n]; simpl;
    try reflexivity. now rewrite IH.
Qed.

Lemma update_id (n : nat) (l : list A) : Torch.update n (fun a => a) l = l.
Proof.
  revert n. induction l as [|a l IH]; intros [|n]; simpl;
    try reflexivity. now rewrite IH.
Qed.

Lemma update_app_r (l1 l2 : list A) (n : nat) (f : A -> A) :
  Torch.update (length l1 + n) f (l1 ++ l2) = l1 ++ Torch.update n f l2.
Proof. induction l1 as [|a l1 IH]; simpl; [reflexivity | now rewrite IH]. Qed.

Lemma skipn_cons_nth (n : nat) (l : list A) (d : A) :
  (n < length l)%nat -> skipn n l = nth n l d :: skipn (S n) l.
Proof.
  revert n. induction l as [|a l IH]; intros n Hn; simpl in Hn; [lia|].
  destruct n as [|n]; [reflexivity|]. simpl. apply IH. lia.
Qed.

Lemma update_overflow (n : nat) (f : A -> A) (l : list A) :
  (length l <= n)%nat -> Torch.update n f l = l.
Proof.
  revert n. induction l as [|a l IH]; intros [|n] H; simpl in *;
    try reflexivity; [lia|]. rewrite IH by lia. reflexivity.
Qed.

(** A loop [for t in range(n): l[t] = h t l[t]]: the positions in range
    are rewritten, in order, and the others kept. *)
Lemma fold_update_seq (h : nat -> A -> A) (d : A) (n : nat) (l : list A) :
  fold_left (fun acc t => Torch.update t (h t) acc) (seq 0 n) l
  = map (fun t => h t (nth t l d)) (seq 0 (Nat.min n (length l)))
    ++ skipn n l.
Proof.
  induction n as [|n IH]; [reflexivity|].
  rewrite seq_S, fold_left_app, IH. simpl fold_left.
  destruct (Nat.lt_ge_cases n (length l)) as [Hn|Hn].
  - replace (Nat.min n (length l)) with n by lia.
    replace (Nat.min (S n) (length l)) with (S n) by lia.
    rewrite seq_S, map_app, <- app_assoc. simpl.
    rewrite (skipn_cons_nth n l d) by lia.
    replace n with (length (map (fun t => h t (nth t l d)) (seq 0 n)) + 0)%nat
      at 1 by (rewrite length_map, length_seq; lia).
    now rewrite update_app_r.
  - replace (Nat.min (S n) (length l)) with (Nat.min n (length l)) by lia.
    rewrite !skipn_all2 by lia.
    apply update_overflow.
    rewrite length_app, length_map, length_seq. simpl. lia.
Qed.

End UpdateFacts.

Section NestedUpdate.
Context {A : Type}.

(** The same loop writing into the element [b] of an enclosing list. *)
Lemma fold_update_inner (b : nat) (h : nat -> A -> A) (ts : list nat)
      (out : list (list A)) :
  fold_left (fun acc t => Torch.update b (Torch.update t (h t)) acc) ts out
  = Torch.update b
      (fun m => fold_left (fun acc t => Torch.update t (h t) acc) ts m) out.
Proof.
  revert out. induction ts as [|t ts IH]; intros out; simpl.
  - now rewrite update_id.
  - now rewrite IH, update_update.
Qed.

End NestedUpdate.

(** * Sums and dot products *)
Section SumFacts.

Lemma sumR_app (l1 l2 : vec) :
  Torch.sumR (l1 ++ l2) = Torch.sumR l1 + Torch.sumR l2.
Proof. induction l1 as [|a l1 IH]; simpl; [lra | rewrite IH; lra]. Qed.

Lemma sumR_repeat (a : R) (n : nat) : Torch.sumR (repeat a n) = INR n * a.
Proof.
  induction n as [|n IH]; [simpl; lra|].
  rewrite S_INR. simpl repeat. simpl Torch.sumR. fold (Torch.sumR (repeat a n)).
  rewrite IH. lra.
Qed.

Lemma sumR_map_div (s : R) (l : vec) :
  Torch.sumR (map (fun a => a / s) l) = Torch.sumR l / s.
Proof.
  induction l as [|a l IH]; simpl; [lra|].
  fold (Torch.sumR (map (fun a => a / s) l)). fold (Torch.sumR l).
  rewrite IH. lra.
Qed.

Lemma sumR_map_seq (f : nat -> R) (n : nat) :
  Torch.sumR (map f (seq 0 n)) = bigsum f n.
Proof.
  induction n as [|n IH]; [reflexivity|].
  rewrite seq_S, map_app, sumR_app, IH. simpl. lra.
Qed.

Lemma bigsum_ext (f g : nat -> R) (n : nat) :
  (forall j, (j < n)%nat -> f j = g j) -> bigsum f n = bigsum g n.
Proof.
  induction n as [|n IH]; intros H; [reflexivity|].
  simpl. rewrite IH, H by (intros; try apply H; lia). reflexivity.
Qed.

Lemma sumR_exp_pos (l : vec) : l <> [] -> 0 < Torch.sumR (map exp l).
Proof.
  intros Hl. destruct l as [|a l]; [contradiction|]. clear Hl. revert a.
  induction l as [|b l IH]; intros a; simpl.
  - pose proof (exp_pos a). lra.
  - specialize (IH b). simpl in IH. pose proof (exp_pos a). lra.
Qed.


Lemma dot_cons (a b : R) (u w : vec) :
  Torch.dot (a :: u) (b :: w) = a * b + Torch.dot u w.
Proof. reflexivity. Qed.

Lemma dot_zeros_l (m : nat) (u : vec) : Torch.dot (repeat 0 m) u = 0.
Proof.
  revert u. induction m as [|m IH]; intros [|b u]; try reflexivity.
  simpl repeat. rewrite dot_cons, IH. lra.
Qed.

(** Zero weights at the end of a row cut the other operand short. *)
Lemma dot_app_zeros (w u : vec) (m : nat) :
  Torch.dot (w ++ repeat 0 m) u = Torch.dot w (firstn (length w) u).
Proof.
  revert u. induction w as [|a w IH]; intros u.
  - simpl. now rewrite dot_zeros_l.
  - destruct u as [|b u]; [reflexivity|].
    simpl app. simpl length. simpl firstn. now rewrite !dot_cons, IH.
Qed.

Lemma dot_repeat_l (a : R) (n : nat) (u : vec) :
  Torch.dot (repeat a n) u = a * Torch.sumR (firstn n u).
Proof.
  revert u. induction n as [|n IH]; intros u; [simpl; unfold Torch.dot; simpl; lra|].
  destruct u as [|b u]; [simpl; unfold Torch.dot; simpl; lra|].
  simpl repeat. simpl firstn. rewrite dot_cons, IH. simpl. lra.
Qed.


End SumFacts.

(** * The causal mask and the weights of versions 2 and 3, row by row *)
Section Masks.

Lemma map_const {A B : Type} (b : B) (l : list A) :
  map (fun _ => b) l = repeat b (length l).
Proof. induction l as [|a l IH]; simpl; [reflexivity | now rewrite IH]. Qed.

Lemma step_row {A : Type} (a b : A) (T t : nat) :
  (t < T)%nat ->
  map (fun j => if (j <=? t)%nat then a else b) (seq 0 T)
  = repeat a (S t) ++ repeat b (T - S t).
Proof.
  intros Ht. replace T with (S t + (T - S t))%nat at 1 by lia.
  rewrite seq_app, map_app. f_equal.
  - rewrite (map_ext_in _ (fun _ => a)).
    + now rewrite map_const, length_seq.
    + intros j Hj. apply in_seq in Hj.
      destruct (Nat.leb_spec j t); [reflexivity | lia].
  - rewrite (map_ext_in _ (fun _ => b)).
    + now rewrite map_const, length_seq.
    + intros j Hj. apply in_seq in Hj.
      destruct (Nat.leb_spec j t); [lia | reflexivity].
Qed.

Lemma length_causal_row (a : R) (T t : nat) :
  (t < T)%nat -> length (causal_row a T t) = T.
Proof.
  intros Ht. unfold causal_row. rewrite length_app, !repeat_length. lia.
Qed.

Lemma sumR_causal_row (a : R) (T t : nat) :
  Torch.sumR (causal_row a T t) = INR (S t) * a.
Proof.
  unfold causal_row. rewrite sumR_app, !sumR_repeat. lra.
Qed.

Lemma tril_ones (T : nat) :
  Torch.tril (Torch.ones T T) = map (causal_row 1 T) (seq 0 T).
Proof.
  unfold Torch.tril, Torch.ones, Torch.full. rewrite imap_repeat.
  apply map_ext_in. intros t Ht. apply in_seq in Ht.
  rewrite imap_repeat. apply step_row. lia.
Qed.


Lemma wei2_rows (T : nat) :
  Version2.wei T = map (fun t => causal_row (/ INR (S t)) T t) (seq 0 T).
Proof.
  unfold Version2.wei, Torch.div_col, Torch.sum_dim1_keepdim.
  rewrite tril_ones, map_map.
  rewrite <- (map_id (map (causal_row 1 T) (seq 0 T))) at 1.
  rewrite map_map, zip_with_map_same.
  apply map_ext. intros t. cbn [nth].
  rewrite sumR_causal_row. unfold causal_row.
  rewrite map_app, !map_repeat. f_equal; f_equal.
  - rewrite Rmult_1_r. unfold Rdiv. apply Rmult_1_l.
  - unfold Rdiv. apply Rmult_0_l.
Qed.

Lemma eq_zero_tril (T : nat) :
  Torch.eq_zero (Torch.tril (Torch.ones T T))
  = map (fun t => repeat false (S t) ++ repeat true (T - S t)) (seq 0 T).
Proof.
  rewrite tril_ones. unfold Torch.eq_zero. rewrite map_map.
  apply map_ext. intros t. unfold causal_row.
  rewrite map_app, !map_repeat. f_equal; f_equal.
  - destruct (Req_dec_T 1 0) as [H|H]; [lra | reflexivity].
  - destruct (Req_dec_T 0 0) as [H|H]; [reflexivity | lra].
Qed.

End Masks.

(** * Masking followed by softmax *)
Section MaskedSoftmax.

Lemma nth_causal_row (a : R) (T t s : nat) :
  nth s (causal_row a T t) 0 = if (s <=? t)%nat then a else 0.
Proof.
  unfold causal_row. destruct (Nat.leb_spec s t) as [Hs|Hs].
  - rewrite app_nth1 by (rewrite repeat_length; lia).
    apply nth_repeat_in. lia.
  - rewrite app_nth2 by (rewrite repeat_length; lia).
    apply nth_repeat.
Qed.

Lemma shape2_nth {A : Type} (n m : nat) (X : list (list A)) (t : nat) :
  shape2 n m X -> (t < n)%nat -> length (nth t X []) = m.
Proof.
  intros [Hn HX] Ht. rewrite Forall_forall in HX. apply HX.
  apply nth_In. lia.
Qed.

Lemma shape3_nth {A : Type} (B n m : nat) (x : list (list (list A)))
      (b : nat) :
  shape3 B n m x -> (b < B)%nat -> shape2 n m (nth b x []).
Proof.
  intros [HB Hx] Hb. rewrite Forall_forall in Hx. apply Hx.
  apply nth_In. lia.
Qed.

(** One row of [masked_fill] under the causal mask. *)
Lemma masked_row (row : vec) (T t : nat) :
  length row = T -> (t < T)%nat ->
  Torch.zip_with (fun a (b : bool) => if b then NegInf else Fin a) row
                 (repeat false (S t) ++ repeat true (T - S t))
  = map Fin (firstn (S t) row) ++ repeat NegInf (T - S t).
Proof.
  intros Hrow Ht. rewrite <- (firstn_skipn (S t) row) at 1.
  assert (Hf : length (firstn (S t) row) = S t)
    by (rewrite length_firstn; lia).
  assert (Hs : length (skipn (S t) row) = (T - S t)%nat)
    by (rewrite length_skipn; lia).
  rewrite zip_with_app by (now rewrite repeat_length).
  rewrite <- Hf at 2. rewrite <- Hs at 1 2.
  rewrite !zip_with_repeat_r. now rewrite map_const.
Qed.

Lemma masked_fill_rows (T : nat) (m : matrix) :
  shape2 T T m ->
  Torch.masked_fill m (Torch.eq_zero (Torch.tril (Torch.ones T T))) NegInf
  = map (fun t => map Fin (firstn (S t) (nth t m []))
                  ++ repeat NegInf (T - S t)) (seq 0 T).
Proof.
  intros Hm. unfold Torch.masked_fill. rewrite eq_zero_tril.
  rewrite (list_as_map_seq m []) at 1. destruct Hm as [HT Hrows].
  rewrite HT, zip_with_map_seq. apply map_ext_in. intros t Ht.
  apply in_seq in Ht. apply masked_row; [|lia].
  apply (shape2_nth T T); [split; assumption | lia].
Qed.

Lemma softmax_row_masked (l : vec) (m : nat) :
  Torch.softmax_row (map Fin l ++ repeat NegInf m)
  = softmax_fin l ++ repeat 0 m.
Proof.
  unfold Torch.softmax_row, softmax_fin.
  rewrite map_app, !map_map, map_repeat. cbn [Torch.xexp].
  rewrite sumR_app, sumR_repeat, Rmult_0_r, Rplus_0_r.
  rewrite map_app, map_map, map_repeat. f_equal. f_equal.
  unfold Rdiv. apply Rmult_0_l.
Qed.

(** The weights that masking and softmax make of a score matrix. *)
Lemma softmax_masked_rows (T : nat) (m : matrix) :
  shape2 T T m ->
  Torch.softmax
    (Torch.masked_fill m (Torch.eq_zero (Torch.tril (Torch.ones T T))) NegInf)
  = map (fun t => softmax_fin (firstn (S t) (nth t m []))
                  ++ repeat 0 (T - S t)) (seq 0 T).
Proof.
  intros Hm. rewrite masked_fill_rows by exact Hm.
  unfold Torch.softmax. rewrite map_map. apply map_ext. intros t.
  apply softmax_row_masked.
Qed.

Lemma softmax_fin_zeros (n : nat) :
  softmax_fin (repeat 0 (S n)) = repeat (/ INR (S n)) (S n).
Proof.
  unfold softmax_fin. rewrite !map_repeat, sumR_repeat, exp_0.
  f_equal. rewrite Rmult_1_r. unfold Rdiv. apply Rmult_1_l.
Qed.

Lemma shape2_full (a : R) (n m : nat) : shape2 n m (Torch.full a n m).
Proof.
  unfold Torch.full. split; [apply repeat_length|].
  apply Forall_forall. intros r Hr. apply repeat_spec in Hr. subst r.
  apply repeat_length.
Qed.

Lemma wei3_rows (T : nat) :
  Version3.wei T = map (fun t => causal_row (/ INR (S t)) T t) (seq 0 T).
Proof.
  unfold Version3.wei, Version3.wei_masked, Version3.tril.
  rewrite softmax_masked_rows by apply shape2_full.
  apply map_ext_in. intros t Ht. apply in_seq in Ht.
  unfold Torch.zeros, Torch.full. rewrite nth_repeat_in by lia.
  rewrite firstn_repeat_le by lia. now rewrite softmax_fin_zeros.
Qed.

(** The matrices the notebook prints for [T = 8]. *)
Example wei_masked_printed :
  Version3.wei_masked 8 =
  [
    [Fin 0; NegInf; NegInf; NegInf; NegInf; NegInf; NegInf; NegInf];
    [Fin 0; Fin 0; NegInf; NegInf; NegInf; NegInf; NegInf; NegInf];
    [Fin 0; Fin 0; Fin 0; NegInf; NegInf; NegInf; NegInf; NegInf];
    [Fin 0; Fin 0; Fin 0; Fin 0; NegInf; NegInf; NegInf; NegInf];
    [Fin 0; Fin 0; Fin 0; Fin 0; Fin 0; NegInf; NegInf; NegInf];
    [Fin 0; Fin 0; Fin 0; Fin 0; Fin 0; Fin 0; NegInf; NegInf];
    [Fin 0; Fin 0; Fin 0; Fin 0; Fin 0; Fin 0; Fin 0; NegInf];
    [Fin 0; Fin 0; Fin 0; Fin 0; Fin 0; Fin 0; Fin 0; Fin 0] ].
Proof.
  unfold Version3.wei_masked, Version3.tril.
  rewrite masked_fill_rows by apply shape2_full. reflexivity.
Qed.

Example wei_printed :
  Version3.wei 8 =
  [
    [1; 0; 0; 0; 0; 0; 0; 0];
    [0.5; 0.5; 0; 0; 0; 0; 0; 0];
    [/ 3; / 3; / 3; 0; 0; 0; 0; 0];
    [0.25; 0.25; 0.25; 0.25; 0; 0; 0; 0];
    [0.2; 0.2; 0.2; 0.2; 0.2; 0; 0; 0];
    [/ 6; / 6; / 6; / 6; / 6; / 6; 0; 0];
    [/ 7; / 7; / 7; / 7; / 7; / 7; / 7; 0];
    [0.125; 0.125; 0.125; 0.125; 0.125; 0.125; 0.125; 0.125] ].
Proof.
  rewrite wei3_rows. cbv [seq map causal_row repeat app Nat.sub].
  repeat (f_equal; try (simpl; lra)).
Qed.

End MaskedSoftmax.

(** * Version 1 as a closed form, and the rows of the matrix products *)
Section Averages.

Lemma fold_left_ext {A B : Type} (f g : A -> B -> A) (l : list B) (i : A) :
  (forall a b, f a b = g a b) -> fold_left f l i = fold_left g l i.
Proof.
  intros H. revert i. induction l as [|b l IH]; intros i; simpl;
    [reflexivity | now rewrite H, IH].
Qed.

Lemma firstn_as_map_seq {A : Type} (n : nat) (l : list A) (d : A) :
  (n <= length l)%nat -> firstn n l = map (fun i => nth i l d) (seq 0 n).
Proof.
  intros Hn. apply (nth_ext _ _ d d).
  - rewrite length_firstn, length_map, length_seq. lia.
  - intros i Hi. rewrite length_firstn in Hi.
    rewrite nth_firstn. destruct (Nat.ltb_spec i n); [|lia].
    rewrite (nth_map_in _ _ _ _ 0%nat) by (rewrite length_seq; lia).
    rewrite seq_nth by lia. reflexivity.
Qed.

Lemma firstn_seq_le (s n m : nat) :
  (n <= m)%nat -> firstn n (seq s m) = seq s n.
Proof.
  revert s m. induction n as [|n IH]; intros s m Hnm; [reflexivity|].
  destruct m as [|m]; [lia|]. simpl. now rewrite IH by lia.
Qed.

(** The two loops fill every row of the pre-allocated tensor. *)
Lemma xbow1_rows (B T C : nat) (x : tensor3) :
  Version1.xbow1 B T C x
  = map (fun b => map (fun t => Torch.mean_dim0 (firstn (t + 1) (nth b x [])))
                      (seq 0 T)) (seq 0 B).
Proof.
  unfold Version1.xbow1.
  rewrite (fold_left_ext _
    (fun acc b => Torch.update b
       (fun m => map (fun t => Torch.mean_dim0 (firstn (t + 1) (nth b x [])))
                     (seq 0 (Nat.min T (length m))) ++ skipn T m) acc)).
  - rewrite (fold_update_seq _ (Torch.zeros T C)).
    unfold Torch.zeros3. rewrite repeat_length, Nat.min_id.
    rewrite skipn_all2 by (rewrite repeat_length; lia).
    rewrite app_nil_r. apply map_ext_in. intros b Hb. apply in_seq in Hb.
    rewrite nth_repeat_in by lia.
    unfold Torch.zeros, Torch.full. rewrite repeat_length, Nat.min_id.
    rewrite skipn_all2 by (rewrite repeat_length; lia).
    apply app_nil_r.
  - intros acc b. unfold Version1.body, Torch.setitem.
    rewrite (fold_update_inner b
      (fun t _ => Torch.mean_dim0 (firstn (t + 1) (nth b x [])))).
    apply update_ext. intros m.
    apply (fold_update_seq
      (fun t _ => Torch.mean_dim0 (firstn (t + 1) (nth b x []))) []).
Qed.

Lemma ncols_firstn (n : nat) (m : matrix) :
  Torch.ncols (firstn (S n) m) = Torch.ncols m.
Proof. now destruct m. Qed.

Lemma column_firstn (c n : nat) (m : matrix) :
  Torch.column c (firstn n m) = firstn n (Torch.column c m).
Proof. unfold Torch.column. now rewrite firstn_map. Qed.

(** Row [t] of [torch.mean] over the slice [: t + 1]. *)
Lemma mean_prefix (xb : matrix) (t : nat) :
  (t < length xb)%nat ->
  Torch.mean_dim0 (firstn (t + 1) xb)
  = map (fun c => / INR (S t) * Torch.sumR (firstn (S t) (Torch.column c xb)))
        (seq 0 (Torch.ncols xb)).
Proof.
  intros Ht. rewrite Nat.add_1_r. unfold Torch.mean_dim0, Torch.sum_dim0.
  rewrite map_map, ncols_firstn, length_firstn.
  replace (Nat.min (S t) (length xb)) with (S t) by lia.
  apply map_ext. intros c. rewrite column_firstn.
  unfold Rdiv. apply Rmult_comm.
Qed.

(** A product whose left factor has causal rows with one weight each. *)
Lemma matmul_causal (T : nat) (w : nat -> R) (xb : matrix) :
  Torch.matmul (map (fun t => causal_row (w t) T t) (seq 0 T)) xb
  = map (fun t => map (fun c => w t * Torch.sumR
                                        (firstn (S t) (Torch.column c xb)))
                      (seq 0 (Torch.ncols xb))) (seq 0 T).
Proof.
  unfold Torch.matmul. rewrite map_map. apply map_ext. intros t.
  apply map_ext. intros c. unfold causal_row.
  rewrite dot_app_zeros, repeat_length, dot_repeat_l, firstn_firstn.
  now rewrite Nat.min_id.
Qed.

Lemma matmul_wei2 (T : nat) (xb : matrix) :
  length xb = T ->
  Torch.matmul (Version2.wei T) xb
  = map (fun t => Torch.mean_dim0 (firstn (t + 1) xb)) (seq 0 T).
Proof.
  intros HT. rewrite wei2_rows, matmul_causal.
  apply map_ext_in. intros t Ht. apply in_seq in Ht.
  rewrite mean_prefix by lia. reflexivity.
Qed.

(** The loops of version 1, run on the small input. *)
Example xbow1_small :
  Version1.xbow1 2 3 2 x_small =
  [ [ [1; 2]; [2; 3]; [3; 4] ];
    [ [0; 1]; [0.5; 0.5]; [1; 1] ] ].
Proof.
  cbv - [Rplus Rmult Rdiv Rinv INR IZR].
  repeat (f_equal; try (simpl; lra)).
Qed.

Example xbow2_small :
  Version2.xbow2 3 x_small =
  [ [ [1; 2]; [2; 3]; [3; 4] ];
    [ [0; 1]; [0.5; 0.5]; [1; 1] ] ].
Proof.
  cbv - [Rplus Rmult Rdiv Rinv INR IZR].
  repeat (f_equal; try (simpl; lra)).
Qed.

End Averages.

(** * The three averaging versions agree *)

(** In exact arithmetic: on an input of shape [(B, T, C)] the nested loops of version 1, the
    normalised triangular product of version 2 and the masked softmax of
    version 3 build, in exact arithmetic, the same tensor, hence the same
    entry at every batch index and time step. *)
Lemma xbow_versions_equal_exact (B T C : nat) (x : tensor3) :
  shape3 B T C x ->
  Version1.xbow1 B T C x = Version2.xbow2 T x /\
  Version2.xbow2 T x = Version3.xbow3 T x.
Proof.
  intros [HB Hx]. split.
  - rewrite xbow1_rows. unfold Version2.xbow2, Torch.matmul_bcast.
    transitivity (map (Torch.matmul (Version2.wei T))
                      (map (fun b => nth b x []) (seq 0 B)));
      [| now rewrite <- HB, <- list_as_map_seq].
    rewrite map_map. apply map_ext_in. intros b Hb. apply in_seq in Hb.
    symmetry. apply matmul_wei2.
    rewrite Forall_forall in Hx. apply Hx. apply nth_In. lia.
  - unfold Version2.xbow2, Version3.xbow3. now rewrite wei2_rows, wei3_rows.
Qed.


(** * Entries of the averages *)
Section Entries.

Lemma ncols_shape2 (n m : nat) (X : matrix) :
  shape2 n m X -> (0 < n)%nat -> Torch.ncols X = m.
Proof.
  intros HX Hn. unfold Torch.ncols.
  rewrite <- (shape2_nth n m X 0 HX Hn). now destruct X.
Qed.

Lemma Forall_map_seq {A : Type} (P : A -> Prop) (n : nat) (f : nat -> A) :
  (forall t, (t < n)%nat -> P (f t)) -> Forall P (map f (seq 0 n)).
Proof.
  intros H. apply Forall_forall. intros r Hr. apply in_map_iff in Hr.
  destruct Hr as [t [<- Ht]]. apply in_seq in Ht. apply H. lia.
Qed.

Lemma shape2_map_seq {A : Type} (n m : nat) (f : nat -> list A) :
  (forall t, (t < n)%nat -> length (f t) = m) -> shape2 n m (map f (seq 0 n)).
Proof.
  intros H. split; [now rewrite length_map, length_seq|].
  now apply Forall_map_seq.
Qed.

Lemma shape3_map_seq {A : Type} (B n m : nat) (f : nat -> list (list A)) :
  (forall b, (b < B)%nat -> shape2 n m (f b)) ->
  shape3 B n m (map f (seq 0 B)).
Proof.
  intros H. split; [now rewrite length_map, length_seq|].
  now apply Forall_map_seq.
Qed.

Lemma sumR_firstn_column (n c : nat) (xb : matrix) :
  (n <= length xb)%nat ->
  Torch.sumR (firstn n (Torch.column c xb))
  = bigsum (fun s => nth c (nth s xb []) 0) n.
Proof.
  intros Hn. assert (Hlen : length (Torch.column c xb) = length xb)
    by (unfold Torch.column; apply length_map).
  rewrite (firstn_as_map_seq n _ 0) by lia. rewrite sumR_map_seq.
  apply bigsum_ext. intros j Hj. unfold Torch.column.
  apply (nth_map_in (fun row => nth c row 0)). lia.
Qed.

Lemma mean_prefix_entry (xb : matrix) (t c : nat) :
  (t < length xb)%nat -> (c < Torch.ncols xb)%nat ->
  nth c (Torch.mean_dim0 (firstn (t + 1) xb)) 0
  = bigsum (fun s => nth c (nth s xb []) 0) (t + 1) / INR (t + 1).
Proof.
  intros Ht Hc. rewrite mean_prefix by exact Ht.
  rewrite (nth_map_in _ _ _ _ 0%nat) by (now rewrite length_seq).
  rewrite seq_nth by exact Hc. simpl Nat.add at 1.
  rewrite sumR_firstn_column by lia. rewrite Nat.add_1_r.
  unfold Rdiv. apply Rmult_comm.
Qed.

Lemma length_mean_prefix (xb : matrix) (t : nat) :
  (t < length xb)%nat ->
  length (Torch.mean_dim0 (firstn (t + 1) xb)) = Torch.ncols xb.
Proof.
  intros Ht. rewrite mean_prefix by exact Ht.
  now rewrite length_map, length_seq.
Qed.

Lemma nth_xbow1 (B T C : nat) (x : tensor3) (b t : nat) :
  (b < B)%nat -> (t < T)%nat ->
  nth t (nth b (Version1.xbow1 B T C x) []) []
  = Torch.mean_dim0 (firstn (t + 1) (nth b x [])).
Proof.
  intros Hb Ht. rewrite xbow1_rows.
  rewrite (nth_map_in _ _ _ _ 0%nat) by (now rewrite length_seq).
  rewrite (nth_map_in _ _ _ _ 0%nat) by (now rewrite length_seq).
  now rewrite !seq_nth.
Qed.

End Entries.

(** In exact arithmetic: version 1 is average pooling over the causal prefix: the entry
    [xbow1[b, t, c]] is the arithmetic mean of [x[b, 0, c] .. x[b, t, c]],
    position [t] included, and [xbow1] has the shape [(B, T, C)] of [x]. *)
Lemma xbow1_prefix_mean_exact (B T C : nat) (x : tensor3) :
  shape3 B T C x ->
  shape3 B T C (Version1.xbow1 B T C x) /\
  forall b t c, (b < B)%nat -> (t < T)%nat -> (c < C)%nat ->
    nth c (nth t (nth b (Version1.xbow1 B T C x) []) []) 0
    = bigsum (fun s => nth c (nth s (nth b x []) []) 0) (t + 1) / INR (t + 1).
Proof.
  intros Hx. split.
  - rewrite xbow1_rows. apply shape3_map_seq. intros b Hb.
    apply shape2_map_seq. intros t Ht.
    pose proof (shape3_nth B T C x b Hx Hb) as Hxb.
    rewrite length_mean_prefix by (destruct Hxb; lia).
    apply (ncols_shape2 T); [exact Hxb | lia].
  - intros b t c Hb Ht Hc. rewrite nth_xbow1 by assumption.
    pose proof (shape3_nth B T C x b Hx Hb) as Hxb.
    apply mean_prefix_entry; [destruct Hxb; lia|].
    rewrite (ncols_shape2 T C); [exact Hc | exact Hxb | lia].
Qed.

(** * The mask and the uniform weights, entry by entry *)
Section WeightEntries.

Lemma nth_map_seq {A : Type} (f : nat -> A) (n t : nat) (d : A) :
  (t < n)%nat -> nth t (map f (seq 0 n)) d = f t.
Proof.
  intros Ht. rewrite (nth_map_in _ _ _ _ 0%nat) by (now rewrite length_seq).
  now rewrite seq_nth.
Qed.

Lemma nth_tril_ones (T i j : nat) :
  (i < T)%nat ->
  nth j (nth i (Torch.tril (Torch.ones T T)) []) 0
  = if (j <=? i)%nat then 1 else 0.
Proof.
  intros Hi. rewrite tril_ones, nth_map_seq by exact Hi.
  apply nth_causal_row.
Qed.

Lemma nth_wei2 (T t s : nat) :
  (t < T)%nat ->
  nth s (nth t (Version2.wei T) []) 0
  = if (s <=? t)%nat then / INR (S t) else 0.
Proof.
  intros Ht. rewrite wei2_rows, nth_map_seq by exact Ht.
  apply nth_causal_row.
Qed.

Lemma shape2_causal_rows (T : nat) (w : nat -> R) :
  shape2 T T (map (fun t => causal_row (w t) T t) (seq 0 T)).
Proof.
  apply shape2_map_seq. intros t Ht. now apply length_causal_row.
Qed.

End WeightEntries.

(** C7: [torch.tril(torch.ones(T, T))] is a [T x T] matrix whose entry
    [(i, j)] is 1 exactly when [j <= i], the diagonal included, and 0 when
    [j > i]; versions 2, 3 and 4 all build this mask. *)
Theorem tril_mask_entries (T : nat) :
  shape2 T T (Torch.tril (Torch.ones T T)) /\
  (forall i j, (i < T)%nat -> (j < T)%nat ->
     (nth j (nth i (Torch.tril (Torch.ones T T)) []) 0 = 1 <-> (j <= i)%nat) /\
     ((i < j)%nat -> nth j (nth i (Torch.tril (Torch.ones T T)) []) 0 = 0)) /\
  Version2.wei T
  = Torch.div_col (Torch.tril (Torch.ones T T))
                  (Torch.sum_dim1_keepdim (Torch.tril (Torch.ones T T))) /\
  Version3.tril T = Torch.tril (Torch.ones T T) /\
  Version4.tril T = Torch.tril (Torch.ones T T).
Proof.
  split; [rewrite tril_ones; apply shape2_causal_rows|].
  split; [|repeat split].
  intros i j Hi Hj. rewrite nth_tril_ones by exact Hi.
  destruct (Nat.leb_spec j i) as [Hji|Hji].
  - split; [split; [intros _; exact Hji | reflexivity] | lia].
  - split; [split; [intros H; lra | lia] | reflexivity].
Qed.

(** C9: the normalised weights of version 2 are uniform over the visible
    positions: [wei[t][s] = 1 / (t + 1)] for [s <= t] and [0] for [s > t],
    so any two nonzero entries of a row are equal, and each entry of
    [xbow2] is the plain mean of the prefix. *)
Theorem wei2_uniform (T : nat) :
  (forall t s, (t < T)%nat -> (s < T)%nat ->
     ((s <= t)%nat -> nth s (nth t (Version2.wei T) []) 0 = 1 / INR (t + 1)) /\
     ((t < s)%nat -> nth s (nth t (Version2.wei T) []) 0 = 0)) /\
  (forall t s s', (t < T)%nat -> (s < T)%nat -> (s' < T)%nat ->
     nth s (nth t (Version2.wei T) []) 0 <> 0 ->
     nth s' (nth t (Version2.wei T) []) 0 <> 0 ->
     nth s (nth t (Version2.wei T) []) 0
     = nth s' (nth t (Version2.wei T) []) 0) /\
  (forall B C x b t c, shape3 B T C x ->
     (b < B)%nat -> (t < T)%nat -> (c < C)%nat ->
     nth c (nth t (nth b (Version2.xbow2 T x) []) []) 0
     = bigsum (fun s => nth c (nth s (nth b x []) []) 0) (t + 1) / INR (t + 1)).
Proof.
  split; [|split].
  - intros t s Ht Hs. rewrite nth_wei2 by exact Ht. rewrite Nat.add_1_r.
    destruct (Nat.leb_spec s t); split; intros; try lia; try reflexivity.
    unfold Rdiv. now rewrite Rmult_1_l.
  - intros t s s' Ht Hs Hs'. rewrite !nth_wei2 by exact Ht.
    destruct (Nat.leb_spec s t), (Nat.leb_spec s' t); intros H1 H2;
      try reflexivity; contradiction.
  - intros B C x b t c Hx Hb Ht Hc.
    pose proof (shape3_nth B T C x b Hx Hb) as Hxb.
    unfold Version2.xbow2, Torch.matmul_bcast.
    rewrite (nth_map_in _ _ _ _ []) by (destruct Hx; lia).
    rewrite matmul_wei2 by (destruct Hxb; assumption).
    rewrite nth_map_seq by exact Ht.
    apply mean_prefix_entry; [destruct Hxb; lia|].
    rewrite (ncols_shape2 T C); [exact Hc | exact Hxb | lia].
Qed.

(** C4: softmax over the rows of the zero matrix with its future entries set
    to minus infinity gives the same [T x T] weights as the triangular mask
    of ones divided by its row sums: [1 / (t + 1)] at [(t, s)] for [s <= t]
    and [0] for [s > t], in both. *)
Theorem softmax_mask_eq_row_normalised (T : nat) :
  Version3.wei T = Version2.wei T /\
  shape2 T T (Version3.wei T) /\
  forall t s, (t < T)%nat -> (s < T)%nat ->
    nth s (nth t (Version3.wei T) []) 0
    = (if (s <=? t)%nat then 1 / INR (t + 1) else 0) /\
    nth s (nth t (Version2.wei T) []) 0
    = (if (s <=? t)%nat then 1 / INR (t + 1) else 0).
Proof.
  assert (Heq : Version3.wei T = Version2.wei T)
    by (now rewrite wei2_rows, wei3_rows).
  split; [exact Heq|]. split.
  - rewrite wei3_rows. apply shape2_causal_rows.
  - intros t s Ht Hs. rewrite Heq, nth_wei2 by exact Ht.
    rewrite Nat.add_1_r. unfold Rdiv. rewrite Rmult_1_l. now split.
Qed.

(** * The attention head, one batch element at a time *)
Section HeadRows.

Lemma lin1_rows (w xb : matrix) :
  lin1 w xb
  = map (fun row => map (fun c => Torch.dot row
                                    (Torch.column c (Torch.transpose w)))
                        (seq 0 (Torch.ncols (Torch.transpose w)))) xb.
Proof. reflexivity. Qed.

Lemma firstn_lin1 (n : nat) (w xb : matrix) :
  firstn n (lin1 w xb) = lin1 w (firstn n xb).
Proof. rewrite !lin1_rows. apply firstn_map. Qed.

Lemma nth_lin1_prefix (n j : nat) (w xb : matrix) :
  (j < n)%nat -> nth j (lin1 w (firstn n xb)) [] = nth j (lin1 w xb) [].
Proof.
  intros Hj. rewrite <- firstn_lin1, nth_firstn.
  destruct (Nat.ltb_spec j n); [reflexivity | lia].
Qed.

Lemma length_lin1 (w xb : matrix) : length (lin1 w xb) = length xb.
Proof. rewrite lin1_rows. apply length_map. Qed.

Lemma rows_lin1 (w xb : matrix) :
  Forall (shape1 (Torch.ncols (Torch.transpose w))) (lin1 w xb).
Proof.
  rewrite lin1_rows. apply Forall_forall. intros r Hr.
  apply in_map_iff in Hr. destruct Hr as [row [<- _]].
  unfold shape1. now rewrite length_map, length_seq.
Qed.

Lemma ncols_lin1 (w xb : matrix) :
  xb <> [] -> Torch.ncols (lin1 w xb) = Torch.ncols (Torch.transpose w).
Proof.
  intros Hxb. destruct xb as [|row xb]; [contradiction|].
  rewrite lin1_rows. unfold Torch.ncols at 1. simpl hd.
  now rewrite length_map, length_seq.
Qed.

Lemma ncols_transpose (m : matrix) :
  (0 < Torch.ncols m)%nat -> Torch.ncols (Torch.transpose m) = length m.
Proof.
  intros Hm. unfold Torch.transpose, Torch.ncols at 1.
  destruct (Torch.ncols m) as [|n]; [lia|]. simpl.
  unfold Torch.column. apply length_map.
Qed.

Lemma ncols_transpose_weight (hs C : nat) (w : matrix) :
  shape2 hs C w -> (0 < hs)%nat -> (0 < C)%nat ->
  Torch.ncols (Torch.transpose w) = hs.
Proof.
  intros Hw Hhs HC. rewrite ncols_transpose.
  - now destruct Hw.
  - rewrite (ncols_shape2 hs C); assumption.
Qed.

Lemma column_transpose (j : nat) (m : matrix) :
  Forall (shape1 (Torch.ncols m)) m -> (j < length m)%nat ->
  Torch.column j (Torch.transpose m) = nth j m [].
Proof.
  intros Hm Hj. unfold Torch.transpose, Torch.column. rewrite map_map.
  assert (Hlen : length (nth j m []) = Torch.ncols m).
  { rewrite Forall_forall in Hm. apply Hm. now apply nth_In. }
  rewrite (list_as_map_seq (nth j m []) 0) at 1. rewrite Hlen.
  apply map_ext. intros c.
  now apply (nth_map_in (fun row => nth c row 0)).
Qed.

(** Row [t] of [q @ k.transpose(-1, -2)] holds the dot products of the
    query of [t] with every key. *)
Lemma matmul_transpose_rows (Q K : matrix) :
  Forall (shape1 (Torch.ncols K)) K -> (0 < Torch.ncols K)%nat ->
  Torch.matmul Q (Torch.transpose K)
  = map (fun qr => map (fun j => Torch.dot qr (nth j K [])) (seq 0 (length K)))
        Q.
Proof.
  intros HK Hn. unfold Torch.matmul. rewrite ncols_transpose by exact Hn.
  apply map_ext. intros qr. apply map_ext_in. intros j Hj.
  apply in_seq in Hj. rewrite column_transpose by (assumption || lia).
  reflexivity.
Qed.

(** The value projection of the small input: [x @ w.T]. *)
Example v_small :
  Version4.v head_small x_small =
  [ [ [2; 3]; [6; 7]; [10; 11] ];
    [ [0; 1]; [2; 1]; [4; 4] ] ].
Proof.
  cbv - [Rplus Rmult Rdiv Rinv INR IZR].
  repeat (f_equal; try lra).
Qed.

(** The scaled scores of the first element of the small input: entry
    [(t, j)] pairs the query of [t] with the key of [j]. *)
Example wei_scaled_small :
  nth 0 (Version4.wei_scaled head_small x_small) [] =
  [ [ 7 * Version4.scale head_small; 15 * Version4.scale head_small;
      23 * Version4.scale head_small ];
    [ 17 * Version4.scale head_small; 37 * Version4.scale head_small;
      57 * Version4.scale head_small ];
    [ 27 * Version4.scale head_small; 59 * Version4.scale head_small;
      91 * Version4.scale head_small ] ].
Proof.
  cbv - [Rplus Rmult Rdiv Rinv INR IZR Rpower Ropp].
  repeat (f_equal; try lra).
Qed.

End HeadRows.

Section HeadBatch.
Variable h : Version4.head.

Lemma wei_scaled_batch (x : tensor3) :
  Version4.wei_scaled h x = map (head_scores h) x.
Proof.
  unfold Version4.wei_scaled, Version4.q, Version4.k, Torch.linear,
    Torch.transpose3, Torch.bmm, Torch.mul_scalar.
  rewrite map_map, zip_with_map_same, map_map. reflexivity.
Qed.

Lemma wei_batch (T : nat) (x : tensor3) :
  Version4.wei h T x = map (head_weights h T) x.
Proof.
  unfold Version4.wei, Version4.wei_masked, Torch.softmax3,
    Torch.masked_fill3.
  rewrite wei_scaled_batch, !map_map. reflexivity.
Qed.

Lemma out_batch (T : nat) (x : tensor3) :
  Version4.out h T x = map (head_out h T) x.
Proof.
  unfold Version4.out, Version4.v, Torch.linear, Torch.bmm.
  rewrite wei_batch, zip_with_map_same. reflexivity.
Qed.

Section OneElement.
Variables (C T : nat) (xb : matrix).
Hypothesis Hxb : shape2 T C xb.
Hypothesis Hkey : shape2 (Version4.head_size h) C (Version4.key h).
Hypothesis Hhs : (0 < Version4.head_size h)%nat.
Hypothesis HC : (0 < C)%nat.

Lemma head_scores_rows :
  head_scores h xb
  = map (fun t =>
           map (fun j => Torch.dot (nth t (lin1 (Version4.query h) xb) [])
                                   (nth j (lin1 (Version4.key h) xb) [])
                         * Version4.scale h) (seq 0 T)) (seq 0 T).
Proof.
  unfold head_scores. destruct Hxb as [HT _].
  destruct xb as [|row xb'] eqn:Exb.
  - simpl in HT. subst T. reflexivity.
  - rewrite <- Exb in *. assert (Hne : xb <> []) by (rewrite Exb; discriminate).
    rewrite matmul_transpose_rows.
    + rewrite length_lin1, HT. unfold Torch.mul_scalar2.
      rewrite map_map.
      rewrite (list_as_map_seq (lin1 (Version4.query h) xb) []) at 1.
      rewrite length_lin1, HT, map_map. apply map_ext. intros t.
      now rewrite map_map.
    + rewrite ncols_lin1 by exact Hne. apply rows_lin1.
    + rewrite ncols_lin1 by exact Hne.
      rewrite (ncols_transpose_weight (Version4.head_size h) C);
        assumption.
Qed.

Lemma shape_head_scores : shape2 T T (head_scores h xb).
Proof.
  rewrite head_scores_rows. apply shape2_map_seq. intros t Ht.
  now rewrite length_map, length_seq.
Qed.

Lemma head_weights_row (t : nat) :
  (t < T)%nat ->
  nth t (head_weights h T xb) []
  = softmax_fin (prefix_scores h t (firstn (S t) xb))
    ++ repeat 0 (T - S t).
Proof.
  intros Ht. unfold head_weights, causal_mask.
  rewrite softmax_masked_rows by exact shape_head_scores.
  rewrite nth_map_seq by exact Ht. f_equal. f_equal.
  rewrite head_scores_rows, nth_map_seq by exact Ht.
  rewrite firstn_map, firstn_seq_le by lia.
  unfold prefix_scores. apply map_ext_in. intros j Hj.
  apply in_seq in Hj. now rewrite !nth_lin1_prefix by lia.
Qed.

Lemma length_prefix_scores (t : nat) (P : matrix) :
  length (softmax_fin (prefix_scores h t P)) = S t.
Proof.
  unfold softmax_fin, prefix_scores.
  now rewrite !length_map, length_seq.
Qed.

Lemma length_head_weights : length (head_weights h T xb) = T.
Proof.
  unfold head_weights, causal_mask.
  rewrite softmax_masked_rows by exact shape_head_scores.
  now rewrite length_map, length_seq.
Qed.

(** The output at [t] is computed from the rows [0 .. t] of the input. *)
Lemma head_out_row (t : nat) :
  (t < T)%nat ->
  nth t (head_out h T xb) [] = prefix_out h t (firstn (S t) xb).
Proof.
  intros Ht. unfold head_out, Torch.matmul.
  rewrite (nth_map_in _ _ _ _ []) by (now rewrite length_head_weights).
  rewrite head_weights_row by exact Ht. unfold prefix_out.
  rewrite <- firstn_lin1, ncols_firstn.
  apply map_ext. intros c.
  now rewrite dot_app_zeros, length_prefix_scores, column_firstn.
Qed.

End OneElement.

End HeadBatch.

(** * Rows of weights are distributions *)
Section Distributions.

Lemma softmax_fin_pos (l : vec) : Forall (fun a => 0 < a) (softmax_fin l).
Proof.
  destruct l as [|a0 l0]; [constructor|].
  assert (HS : 0 < Torch.sumR (map exp (a0 :: l0)))
    by (apply sumR_exp_pos; discriminate).
  unfold softmax_fin. apply Forall_forall. intros r Hr.
  apply in_map_iff in Hr. destruct Hr as [a [<- _]].
  apply Rdiv_lt_0_compat; [apply exp_pos | exact HS].
Qed.

Lemma softmax_fin_sum (l : vec) :
  l <> [] -> Torch.sumR (softmax_fin l) = 1.
Proof.
  intros Hl. pose proof (sumR_exp_pos l Hl) as HS.
  unfold softmax_fin.
  rewrite <- (map_map exp (fun e => e / Torch.sumR (map exp l))).
  rewrite sumR_map_div. field. lra.
Qed.

Lemma length_softmax_fin (l : vec) : length (softmax_fin l) = length l.
Proof. unfold softmax_fin. apply length_map. Qed.

(** A row made of a softmax over the visible scores, then zeros. *)
Lemma weights_row_distribution (l : vec) (m : nat) :
  l <> [] ->
  Forall (fun a => 0 <= a) (softmax_fin l ++ repeat 0 m) /\
  Torch.sumR (softmax_fin l ++ repeat 0 m) = 1 /\
  Torch.sumR (firstn (length l) (softmax_fin l ++ repeat 0 m)) = 1 /\
  forall j, (length l <= j)%nat -> nth j (softmax_fin l ++ repeat 0 m) 0 = 0.
Proof.
  intros Hl. repeat split.
  - apply Forall_app. split.
    + eapply Forall_impl; [|apply softmax_fin_pos]. intros a Ha. lra.
    + apply Forall_forall. intros r Hr. apply repeat_spec in Hr. lra.
  - rewrite sumR_app, sumR_repeat, softmax_fin_sum by exact Hl. lra.
  - rewrite <- (length_softmax_fin l) at 1.
    rewrite firstn_app, Nat.sub_diag, firstn_all, firstn_O, app_nil_r.
    now apply softmax_fin_sum.
  - intros j Hj. rewrite app_nth2 by (rewrite length_softmax_fin; lia).
    apply nth_repeat.
Qed.


End Distributions.


(** * The order of scaling and masking *)
Section ScaleOrder.

Lemma sumR_map_mul (c : R) (l : vec) :
  Torch.sumR (map (fun a => a * c) l) = Torch.sumR l * c.
Proof.
  induction l as [|a l IH]; simpl; [lra|].
  fold (Torch.sumR (map (fun a => a * c) l)). fold (Torch.sumR l).
  rewrite IH. lra.
Qed.

Lemma scale_lt_1 (h : Version4.head) :
  (2 <= Version4.head_size h)%nat -> Version4.scale h < 1.
Proof.
  intros Hhs. unfold Version4.scale.
  assert (H1 : 1 < INR (Version4.head_size h)).
  { apply le_INR in Hhs. simpl in Hhs. lra. }
  rewrite <- (Rpower_O (INR (Version4.head_size h))) by lra.
  apply Rpower_lt; lra.
Qed.

(** With the notebook's [head_size = 16] the factor is one quarter. *)
Lemma scale_16 (h : Version4.head) :
  Version4.head_size h = 16%nat -> Version4.scale h = / 4.
Proof.
  intros Hhs. unfold Version4.scale. rewrite Hhs.
  replace (- 0.5) with (- / 2) by lra.
  rewrite Rpower_Ropp, Rpower_sqrt by (apply lt_0_INR; lia).
  f_equal. replace (INR 16) with (4 * 4) by (simpl; lra).
  apply sqrt_square. lra.
Qed.

Lemma shape2_mul_scalar2 (n m : nat) (X : matrix) (c : R) :
  shape2 n m (Torch.mul_scalar2 X c) -> shape2 n m X.
Proof.
  unfold Torch.mul_scalar2. intros [Hn HX]. rewrite length_map in Hn.
  split; [exact Hn|]. rewrite Forall_forall in *. intros r Hr.
  specialize (HX (map (fun a => a * c) r) (in_map _ _ _ Hr)).
  unfold shape1 in *. now rewrite length_map in HX.
Qed.

Lemma mask_softmax_scale_batch (h : Version4.head) (T : nat) (x : tensor3) :
  weights_mask_softmax_scale h T x
  = map (fun xb =>
           Torch.mul_scalar2
             (Torch.softmax
                (Torch.masked_fill
                   (Torch.matmul (lin1 (Version4.query h) xb)
                      (Torch.transpose (lin1 (Version4.key h) xb)))
                   (causal_mask T) NegInf))
             (Version4.scale h)) x.
Proof.
  unfold weights_mask_softmax_scale, Version4.q, Version4.k, Torch.linear,
    Torch.transpose3, Torch.bmm, Torch.mul_scalar, Torch.softmax3,
    Torch.masked_fill3.
  rewrite !map_map, zip_with_map_same, !map_map. reflexivity.
Qed.

(** Row sums under the two orders: one, and the scale factor. *)
Lemma row_sum_softmax_masked (T : nat) (m : matrix) (t : nat) :
  shape2 T T m -> (t < T)%nat ->
  Torch.sumR (nth t (Torch.softmax
                       (Torch.masked_fill m (causal_mask T) NegInf)) []) = 1.
Proof.
  intros Hm Ht. unfold causal_mask.
  rewrite softmax_masked_rows by exact Hm.
  rewrite nth_map_seq by exact Ht.
  apply weights_row_distribution.
  intros H. apply (f_equal (@length R)) in H.
  rewrite length_firstn, (shape2_nth T T m t Hm Ht) in H.
  cbn [length] in H. lia.
Qed.

End ScaleOrder.

(** Scaling after the softmax gives other weights as soon as [head_size]
    is at least 2: the rows then sum to [head_size**-0.5], not to one. *)
Lemma post_softmax_scaling_differs (h : Version4.head) (B T C : nat)
      (x : tensor3) :
  shape3 B T C x -> Version4.head_shape C h ->
  (2 <= Version4.head_size h)%nat -> (0 < C)%nat ->
  (0 < B)%nat -> (0 < T)%nat ->
  Version4.wei h T x <> weights_mask_softmax_scale h T x.
Proof.
  intros Hx [_ [Hkey _]] Hhs HC HB HT Heq.
  pose proof (shape3_nth B T C x 0 Hx HB) as Hxb.
  assert (Hhs0 : (0 < Version4.head_size h)%nat) by lia.
  pose proof (shape_head_scores h C T _ Hxb Hkey Hhs0 HC) as Hsc.
  apply (f_equal (fun w => Torch.sumR (nth 0 (nth 0 w []) []))) in Heq.
  rewrite wei_batch, mask_softmax_scale_batch in Heq.
  rewrite !(nth_map_in _ _ _ _ []) in Heq by (destruct Hx; lia).
  unfold head_weights in Heq.
  rewrite (row_sum_softmax_masked T _ 0 Hsc HT) in Heq.
  unfold Torch.mul_scalar2 in Heq.
  rewrite (nth_map_in _ _ _ _ []) in Heq.
  - rewrite sumR_map_mul in Heq.
    rewrite (row_sum_softmax_masked T _ 0) in Heq;
      [| apply (shape2_mul_scalar2 T T _ (Version4.scale h)); exact Hsc
       | exact HT].
    pose proof (scale_lt_1 h Hhs). lra.
  - unfold Torch.softmax, Torch.masked_fill. rewrite length_map.
    rewrite length_zip_with.
    + apply shape2_mul_scalar2 in Hsc. destruct Hsc. lia.
    + apply shape2_mul_scalar2 in Hsc. destruct Hsc as [Hl _].
      unfold causal_mask. rewrite eq_zero_tril, length_map, length_seq.
      exact Hl.
Qed.

(** * No information flows from later positions *)
Section Causality.

Lemma nth_out (h : Version4.head) (B T C : nat) (x : tensor3) (b t : nat) :
  shape3 B T C x -> Version4.head_shape C h ->
  (0 < Version4.head_size h)%nat -> (0 < C)%nat ->
  (b < B)%nat -> (t < T)%nat ->
  nth t (nth b (Version4.out h T x) []) []
  = prefix_out h t (firstn (S t) (nth b x [])).
Proof.
  intros Hx [_ [Hkey _]] Hhs HC Hb Ht.
  pose proof (shape3_nth B T C x b Hx Hb) as Hxb.
  rewrite out_batch.
  rewrite (nth_map_in _ _ _ _ []) by (destruct Hx; lia).
  exact (head_out_row h C T _ Hxb Hkey Hhs HC t Ht).
Qed.

Lemma nth_wei4 (h : Version4.head) (B T C : nat) (x : tensor3) (b t : nat) :
  shape3 B T C x -> Version4.head_shape C h ->
  (0 < Version4.head_size h)%nat -> (0 < C)%nat ->
  (b < B)%nat -> (t < T)%nat ->
  nth t (nth b (Version4.wei h T x) []) []
  = softmax_fin (prefix_scores h t (firstn (S t) (nth b x [])))
    ++ repeat 0 (T - S t).
Proof.
  intros Hx [_ [Hkey _]] Hhs HC Hb Ht.
  pose proof (shape3_nth B T C x b Hx Hb) as Hxb.
  rewrite wei_batch.
  rewrite (nth_map_in _ _ _ _ []) by (destruct Hx; lia).
  exact (head_weights_row h C T _ Hxb Hkey Hhs HC t Ht).
Qed.

Lemma nth_xbow2 (B T C : nat) (x : tensor3) (b t : nat) :
  shape3 B T C x -> (b < B)%nat -> (t < T)%nat ->
  nth t (nth b (Version2.xbow2 T x) []) []
  = Torch.mean_dim0 (firstn (t + 1) (nth b x [])).
Proof.
  intros Hx Hb Ht. pose proof (shape3_nth B T C x b Hx Hb) as Hxb.
  unfold Version2.xbow2, Torch.matmul_bcast.
  rewrite (nth_map_in _ _ _ _ []) by (destruct Hx; lia).
  rewrite matmul_wei2 by (destruct Hxb; assumption).
  now rewrite nth_map_seq.
Qed.

Lemma nth_xbow3 (B T C : nat) (x : tensor3) (b t : nat) :
  shape3 B T C x -> (b < B)%nat -> (t < T)%nat ->
  nth t (nth b (Version3.xbow3 T x) []) []
  = Torch.mean_dim0 (firstn (t + 1) (nth b x [])).
Proof.
  intros Hx Hb Ht. pose proof (shape3_nth B T C x b Hx Hb) as Hxb.
  unfold Version3.xbow3, Torch.matmul_bcast.
  rewrite (nth_map_in _ _ _ _ []) by (destruct Hx; lia).
  replace (Version3.wei T) with (Version2.wei T)
    by (now rewrite wei2_rows, wei3_rows).
  rewrite matmul_wei2 by (destruct Hxb; assumption).
  now rewrite nth_map_seq.
Qed.

End Causality.

(** In exact arithmetic: the causal mask lets no position attend to a later one.  In
    versions 3 and 4 the weight at row [i], column [j] is exactly 0 whenever
    [j > i]; hence, with the same projection weights, two inputs that agree
    on the positions [0 .. t] of batch element [b] give the same output row
    [out[b, t]] (and the same [xbow3[b, t]]). *)
Lemma causal_mask_blocks_future_exact :
  (forall T i j, (i < T)%nat -> (j < T)%nat -> (i < j)%nat ->
     nth j (nth i (Version3.wei T) []) 0 = 0) /\
  (forall h B T C x b i j,
     shape3 B T C x -> Version4.head_shape C h ->
     (0 < Version4.head_size h)%nat -> (0 < C)%nat ->
     (b < B)%nat -> (i < T)%nat -> (j < T)%nat -> (i < j)%nat ->
     nth j (nth i (nth b (Version4.wei h T x) []) []) 0 = 0) /\
  (forall h B T C x x' b t,
     shape3 B T C x -> shape3 B T C x' -> Version4.head_shape C h ->
     (0 < Version4.head_size h)%nat -> (0 < C)%nat ->
     (b < B)%nat -> (t < T)%nat ->
     firstn (t + 1) (nth b x []) = firstn (t + 1) (nth b x' []) ->
     nth t (nth b (Version4.out h T x) []) []
     = nth t (nth b (Version4.out h T x') []) [] /\
     nth t (nth b (Version3.xbow3 T x) []) []
     = nth t (nth b (Version3.xbow3 T x') []) []).
Proof.
  split; [|split].
  - intros T i j Hi Hj Hij. rewrite wei3_rows, nth_map_seq by exact Hi.
    rewrite nth_causal_row. destruct (Nat.leb_spec j i); [lia | reflexivity].
  - intros h B T C x b i j Hx Hh Hhs HC Hb Hi Hj Hij.
    rewrite (nth_wei4 h B T C x b i Hx Hh Hhs HC Hb Hi).
    rewrite app_nth2.
    + apply nth_repeat.
    + rewrite length_softmax_fin. unfold prefix_scores.
      rewrite length_map, length_seq. lia.
  - intros h B T C x x' b t Hx Hx' Hh Hhs HC Hb Ht Hpre. split.
    + rewrite (nth_out h B T C x b t Hx Hh Hhs HC Hb Ht).
      rewrite (nth_out h B T C x' b t Hx' Hh Hhs HC Hb Ht).
      rewrite Nat.add_1_r in Hpre. now rewrite Hpre.
    + rewrite (nth_xbow3 B T C x b t Hx Hb Ht).
      rewrite (nth_xbow3 B T C x' b t Hx' Hb Ht).
      now rewrite Hpre.
Qed.

(** * The first time step *)
Section FirstStep.

Lemma ncols_nth0 (xb : matrix) : Torch.ncols xb = length (nth 0 xb []).
Proof. now destruct xb. Qed.

Lemma mean_first (xb : matrix) :
  (0 < length xb)%nat ->
  Torch.mean_dim0 (firstn (0 + 1) xb) = nth 0 xb [].
Proof.
  intros Hxb. apply (nth_ext _ _ 0 0).
  - rewrite length_mean_prefix by exact Hxb. apply ncols_nth0.
  - intros c Hc. rewrite length_mean_prefix in Hc by exact Hxb.
    rewrite mean_prefix_entry by assumption. simpl. field.
Qed.

Lemma softmax_fin_single (s : R) : softmax_fin [s] = [1].
Proof.
  unfold softmax_fin. simpl. f_equal. pose proof (exp_pos s). field. lra.
Qed.

(** On a prefix of one row the head returns the value of that row. *)
Lemma prefix_out_first (h : Version4.head) (row : vec) :
  prefix_out h 0 [row] = nth 0 (lin1 (Version4.value h) [row]) [].
Proof.
  unfold prefix_out, prefix_scores. simpl seq at 1. simpl map at 2.
  rewrite softmax_fin_single, ncols_nth0.
  rewrite (list_as_map_seq (nth 0 (lin1 (Version4.value h) [row]) []) 0)
    at 2.
  apply map_ext. intros c. rewrite lin1_rows. simpl.
  unfold Torch.dot. simpl. lra.
Qed.

End FirstStep.

(** In exact arithmetic: at the first time step every version returns its input row: for
    every batch index [b], [xbow1[b, 0] = xbow2[b, 0] = xbow3[b, 0] = x[b, 0]]
    (a mean over one element), and in version 4 the first row of weights is
    one-hot at position 0, whatever the scores, so [out[b, 0] = v[b, 0]]. *)
Lemma first_step_reproduces_input_exact :
  (forall B T C x b, shape3 B T C x -> (b < B)%nat -> (0 < T)%nat ->
     nth 0 (nth b (Version1.xbow1 B T C x) []) [] = nth 0 (nth b x []) [] /\
     nth 0 (nth b (Version2.xbow2 T x) []) [] = nth 0 (nth b x []) [] /\
     nth 0 (nth b (Version3.xbow3 T x) []) [] = nth 0 (nth b x []) []) /\
  (forall h B T C x b,
     shape3 B T C x -> Version4.head_shape C h ->
     (0 < Version4.head_size h)%nat -> (0 < C)%nat ->
     (b < B)%nat -> (0 < T)%nat ->
     nth 0 (nth b (Version4.wei h T x) []) [] = 1 :: repeat 0 (T - 1) /\
     nth 0 (nth b (Version4.out h T x) []) []
     = nth 0 (nth b (Version4.v h x) []) []).
Proof.
  split.
  - intros B T C x b Hx Hb HT.
    pose proof (shape3_nth B T C x b Hx Hb) as [Hlen _].
    rewrite nth_xbow1 by assumption.
    rewrite (nth_xbow2 B T C) by assumption.
    rewrite (nth_xbow3 B T C) by assumption.
    rewrite mean_first by lia. repeat split.
  - intros h B T C x b Hx Hh Hhs HC Hb HT.
    pose proof (shape3_nth B T C x b Hx Hb) as [Hlen _].
    destruct (nth b x []) as [|row xb'] eqn:Exb; [simpl in Hlen; lia|].
    split.
    + rewrite (nth_wei4 h B T C x b 0 Hx Hh Hhs HC Hb HT), Exb.
      unfold prefix_scores. change (seq 0 1) with [0%nat]. cbn [map].
      now rewrite softmax_fin_single.
    + rewrite (nth_out h B T C x b 0 Hx Hh Hhs HC Hb HT), Exb.
      simpl firstn. rewrite prefix_out_first.
      unfold Version4.v, Torch.linear.
      rewrite (nth_map_in _ _ _ _ []) by (destruct Hx; lia).
      rewrite Exb. reflexivity.
Qed.

(** * The statements on the small input *)

Ltac shape := repeat (split || constructor).
Ltac side := first [lia | simpl; lia | reflexivity | shape].

Lemma softmax_mask_eq_row_normalised_witness :
  Version3.wei 3 = Version2.wei 3 /\
  nth 0 (nth 1 (Version3.wei 3) []) 0 = 1 / 2 /\
  nth 2 (nth 1 (Version2.wei 3) []) 0 = 0.
Proof.
  destruct (softmax_mask_eq_row_normalised 3) as [Heq [_ H]].
  split; [exact Heq|]. split.
  - rewrite (proj1 (H 1%nat 0%nat ltac:(lia) ltac:(lia))). simpl. lra.
  - exact (proj2 (H 1%nat 2%nat ltac:(lia) ltac:(lia))).
Defined.


Lemma tril_mask_entries_witness :
  (nth 1 (nth 2 (Torch.tril (Torch.ones 8 8)) []) 0 = 1 <-> (1 <= 2)%nat) /\
  nth 5 (nth 2 (Torch.tril (Torch.ones 8 8)) []) 0 = 0.
Proof.
  destruct (tril_mask_entries 8) as [_ [H _]]. split.
  - apply (H 2 1)%nat; lia.
  - apply (H 2 5)%nat; lia.
Defined.

Lemma wei2_uniform_witness :
  nth 1 (nth 2 (Version2.wei 8) []) 0 = 1 / 3 /\
  nth 5 (nth 2 (Version2.wei 8) []) 0 = 0 /\
  nth 0 (nth 1 (nth 0 (Version2.xbow2 3 x_small) []) []) 0 = 2.
Proof.
  destruct (wei2_uniform 8) as [H _].
  destruct (wei2_uniform 3) as [_ [_ Hx]].
  split; [|split].
  - rewrite (proj1 (H 2%nat 1%nat ltac:(lia) ltac:(lia)) ltac:(lia)).
    simpl. lra.
  - exact (proj2 (H 2%nat 5%nat ltac:(lia) ltac:(lia)) ltac:(lia)).
  - rewrite (Hx 2%nat 2%nat x_small 0%nat 1%nat 0%nat
                ltac:(shape) ltac:(lia) ltac:(lia) ltac:(lia)).
    simpl. lra.
Defined.

(** * Further properties of the notebook *)

(** ** Broadcasting and [keepdim] *)
Section KeepdimFacts.

Lemma bigsum_zero_tail (f : nat -> R) (n T : nat) :
  (n <= T)%nat -> (forall j, (n <= j)%nat -> f j = 0) ->
  bigsum f T = bigsum f n.
Proof.
  intros HnT Hf. induction T as [|T IH].
  - replace n with 0%nat by lia. reflexivity.
  - destruct (Nat.eq_dec n (S T)) as [->|Hne]; [reflexivity|].
    simpl. rewrite IH by lia. rewrite (Hf T) by lia. lra.
Qed.

Lemma bigsum_harmonic_gt_1 (k : nat) :
  1 < bigsum (fun s => 1 / INR (s + 1)) (S (S k)).
Proof.
  induction k as [|k IH].
  - simpl. lra.
  - change (bigsum (fun s => 1 / INR (s + 1)) (S (S (S k))))
      with (bigsum (fun s => 1 / INR (s + 1)) (S (S k))
            + 1 / INR (S (S k) + 1)).
    assert (0 < 1 / INR (S (S k) + 1)).
    { apply Rdiv_lt_0_compat; [lra | apply lt_0_INR; lia]. }
    lra.
Qed.

Lemma sum_incorrect_values (T : nat) :
  Keepdim.sum_incorrect T = map (fun t => INR (S t)) (seq 0 T).
Proof.
  unfold Keepdim.sum_incorrect, Keepdim.wei, TorchMore.sum_dim1.
  rewrite tril_ones, map_map. apply map_ext. intros t.
  rewrite sumR_causal_row. apply Rmult_1_r.
Qed.

Lemma sum_correct_values (T : nat) :
  Keepdim.sum_correct T = map (fun t => [INR (S t)]) (seq 0 T).
Proof.
  unfold Keepdim.sum_correct, Keepdim.wei, Torch.sum_dim1_keepdim.
  rewrite tril_ones, map_map. apply map_ext. intros t.
  rewrite sumR_causal_row. now rewrite Rmult_1_r.
Qed.

Lemma wei_incorrect_row (T t : nat) :
  (t < T)%nat ->
  nth t (Keepdim.wei_incorrect T) []
  = map (fun s => (if (s <=? t)%nat then 1 else 0) / INR (S s)) (seq 0 T).
Proof.
  intros Ht. unfold Keepdim.wei_incorrect, TorchMore.div_row.
  rewrite sum_incorrect_values. unfold Keepdim.wei.
  rewrite tril_ones, map_map, nth_map_seq by exact Ht.
  unfold causal_row. rewrite <- (step_row 1 0 T t Ht).
  apply zip_with_map_seq.
Qed.

End KeepdimFacts.

(** X1: [wei.sum(1)] is the vector [1, 2, .., T] of shape [(T)], while
    [wei.sum(1, keepdim=True)] holds the same sums as a column of shape
    [(T, 1)]. *)
Theorem keepdim_sums (T : nat) :
  shape1 T (Keepdim.sum_incorrect T) /\
  shape2 T 1 (Keepdim.sum_correct T) /\
  Keepdim.sum_correct T = map (fun s => [s]) (Keepdim.sum_incorrect T) /\
  forall t, (t < T)%nat ->
    nth t (Keepdim.sum_incorrect T) 0 = INR (t + 1) /\
    nth t (Keepdim.sum_correct T) [] = [INR (t + 1)].
Proof.
  rewrite sum_incorrect_values, sum_correct_values. repeat split.
  - unfold shape1. now rewrite length_map, length_seq.
  - now rewrite length_map, length_seq.
  - apply Forall_map_seq. reflexivity.
  - now rewrite map_map.
  - rewrite nth_map_seq by assumption. now rewrite Nat.add_1_r.
  - rewrite nth_map_seq by assumption. now rewrite Nat.add_1_r.
Qed.

Lemma keepdim_sums_witness :
  nth 2 (Keepdim.sum_incorrect 8) 0 = 3 /\
  nth 2 (Keepdim.sum_correct 8) [] = [3].
Proof.
  destruct (keepdim_sums 8) as [_ [_ [_ H]]].
  destruct (H 2%nat ltac:(lia)) as [H1 H2]. rewrite H1, H2.
  split; [simpl; lra | f_equal; simpl; lra].
Defined.

(** X2: dividing the triangular mask by the [keepdim=True] sums makes every
    row sum to one, whereas dividing by the plain [sum(1)] vector divides
    column [s] by [s + 1]: row [t] then sums to [1 + 1/2 + .. + 1/(t+1)],
    which exceeds one from the second row on. *)
Theorem keepdim_normalises_rows (T t : nat) :
  (t < T)%nat ->
  Torch.sumR (nth t (Keepdim.wei_correct T) []) = 1 /\
  (forall s, (s < T)%nat ->
     nth s (nth t (Keepdim.wei_incorrect T) []) 0
     = if (s <=? t)%nat then 1 / INR (s + 1) else 0) /\
  Torch.sumR (nth t (Keepdim.wei_incorrect T) [])
  = bigsum (fun s => 1 / INR (s + 1)) (t + 1) /\
  ((1 <= t)%nat -> 1 < Torch.sumR (nth t (Keepdim.wei_incorrect T) [])).
Proof.
  intros Ht.
  assert (Hsum : Torch.sumR (nth t (Keepdim.wei_incorrect T) [])
                 = bigsum (fun s => 1 / INR (s + 1)) (t + 1)).
  { rewrite wei_incorrect_row by exact Ht. rewrite sumR_map_seq.
    rewrite (bigsum_zero_tail _ (t + 1) T) by
      first [ lia
            | intros j Hj; destruct (Nat.leb_spec j t); [lia|];
              unfold Rdiv; apply Rmult_0_l ].
    apply bigsum_ext. intros j Hj. rewrite Nat.add_1_r.
    destruct (Nat.leb_spec j t); [reflexivity | lia]. }
  split; [|split; [|split]].
  - change (Keepdim.wei_correct T) with (Version2.wei T).
    rewrite wei2_rows, nth_map_seq by exact Ht.
    rewrite sumR_causal_row. apply Rinv_r. apply not_0_INR. discriminate.
  - intros s Hs. rewrite wei_incorrect_row by exact Ht.
    rewrite nth_map_seq by exact Hs. rewrite Nat.add_1_r.
    destruct (Nat.leb_spec s t); [reflexivity|].
    unfold Rdiv. apply Rmult_0_l.
  - exact Hsum.
  - intros H1. rewrite Hsum. destruct t as [|[|k]]; [lia| |].
    + apply (bigsum_harmonic_gt_1 0).
    + replace (S (S k) + 1)%nat with (S (S (S k))) by lia.
      apply (bigsum_harmonic_gt_1 (S k)).
Qed.

Lemma keepdim_normalises_rows_witness :
  Torch.sumR (nth 1 (Keepdim.wei_correct 8) []) = 1 /\
  Torch.sumR (nth 1 (Keepdim.wei_incorrect 8) []) = 3 / 2.
Proof.
  destruct (keepdim_normalises_rows 8 1 ltac:(lia)) as [H1 [_ [H2 _]]].
  split; [exact H1|]. rewrite H2. simpl. lra.
Defined.

Section VersionsAgree.

Lemma xbow1_eq_xbow2 (B T C : nat) (x : tensor3) :
  shape3 B T C x -> Version1.xbow1 B T C x = Version2.xbow2 T x.
Proof.
  intros Hx. apply (nth_ext _ _ [] []).
  - rewrite xbow1_rows. unfold Version2.xbow2, Torch.matmul_bcast.
    rewrite !length_map, length_seq. now destruct Hx.
  - intros b Hb. rewrite xbow1_rows, length_map, length_seq in Hb.
    pose proof (shape3_nth B T C x b Hx Hb) as [HT _].
    apply (nth_ext _ _ [] []).
    + rewrite xbow1_rows, nth_map_seq, length_map, length_seq by exact Hb.
      unfold Version2.xbow2, Torch.matmul_bcast.
      rewrite (nth_map_in _ _ _ _ []) by (destruct Hx; lia).
      rewrite matmul_wei2 by exact HT. now rewrite length_map, length_seq.
    + intros t Ht.
      rewrite xbow1_rows, nth_map_seq, length_map, length_seq in Ht
        by exact Hb.
      rewrite nth_xbow1 by assumption.
      now rewrite (nth_xbow2 B T C) by assumption.
Qed.

Lemma xbow2_eq_xbow3 (T : nat) (x : tensor3) :
  Version2.xbow2 T x = Version3.xbow3 T x.
Proof.
  unfold Version2.xbow2, Version3.xbow3. now rewrite wei2_rows, wei3_rows.
Qed.

End VersionsAgree.

(** ** Variance under scaling *)
Section Variance.






End Variance.



(** ** Softmax of scaled inputs *)
Section Sharpening.

Lemma exp_le (a b : R) : a <= b -> exp a <= exp b.
Proof.
  intros [H | ->]; [left; now apply exp_increasing | right; reflexivity].
Qed.

Lemma sumR_map_le {A : Type} (f g : A -> R) (l : list A) :
  (forall a, In a l -> f a <= g a) ->
  Torch.sumR (map f l) <= Torch.sumR (map g l).
Proof.
  induction l as [|a l IH]; intros H; [simpl; lra|].
  change (f a + Torch.sumR (map f l) <= g a + Torch.sumR (map g l)).
  assert (f a <= g a) by (apply H; now left).
  assert (Torch.sumR (map f l) <= Torch.sumR (map g l))
    by (apply IH; intros b Hb; apply H; now right).
  lra.
Qed.

Lemma sumR_map_mul_l {A : Type} (c : R) (f : A -> R) (l : list A) :
  Torch.sumR (map (fun a => c * f a) l) = c * Torch.sumR (map f l).
Proof.
  induction l as [|a l IH]; [simpl; lra|].
  change (c * f a + Torch.sumR (map (fun a => c * f a) l)
          = c * (f a + Torch.sumR (map f l))).
  rewrite IH. lra.
Qed.

Lemma Rle_div_cross (a b c d : R) :
  0 < b -> 0 < d -> a * d <= c * b -> a / b <= c / d.
Proof.
  intros Hb Hd H.
  replace (a / b) with (a * d * / (b * d)) by (field; lra).
  replace (c / d) with (c * b * / (b * d)) by (field; lra).
  apply Rmult_le_compat_r; [|exact H].
  left. apply Rinv_0_lt_compat. nra.
Qed.

Lemma nth_softmax_fin (l : vec) (m : nat) :
  (m < length l)%nat ->
  nth m (softmax_fin l) 0 = exp (nth m l 0) / Torch.sumR (map exp l).
Proof.
  intros Hm. unfold softmax_fin.
  now rewrite (nth_map_in _ _ _ _ 0) by exact Hm.
Qed.

(** A larger factor moves weight to a maximal entry. *)
Lemma softmax_fin_scale_mono (x : vec) (m : nat) (s1 s2 : R) :
  (m < length x)%nat -> Forall (fun a => a <= nth m x 0) x -> s1 <= s2 ->
  nth m (softmax_fin (map (fun a => a * s1) x)) 0
  <= nth m (softmax_fin (map (fun a => a * s2) x)) 0.
Proof.
  intros Hm Hmax Hs.
  assert (Hne : forall s, map (fun a => a * s) x <> []).
  { intros s H. apply (f_equal (@length R)) in H.
    rewrite length_map in H. simpl in H. lia. }
  rewrite !nth_softmax_fin by (now rewrite length_map).
  rewrite !(nth_map_in _ _ _ _ 0) by exact Hm.
  apply Rle_div_cross; try (apply sumR_exp_pos; apply Hne).
  rewrite !map_map.
  rewrite <- (sumR_map_mul_l (exp (nth m x 0 * s1)) (fun a => exp (a * s2))).
  rewrite <- (sumR_map_mul_l (exp (nth m x 0 * s2)) (fun a => exp (a * s1))).
  apply sumR_map_le. intros a Ha.
  rewrite <- !exp_plus. apply exp_le.
  rewrite Forall_forall in Hmax. specialize (Hmax a Ha). nra.
Qed.

Lemma softmax_real_row (l : vec) :
  Torch.softmax_row (map Fin l) = softmax_fin l.
Proof.
  pose proof (softmax_row_masked l 0) as H. simpl in H.
  now rewrite !app_nil_r in H.
Qed.

Lemma x_softmaxes_rows (x : vec) :
  Scaling.x_softmaxes x
  = map (fun i => softmax_fin (map (fun a => a * INR i) x)) Scaling.scale.
Proof.
  unfold Scaling.x_softmaxes, TorchMore.softmax_real, Scaling.x_scaled,
    TorchMore.stack, Torch.softmax.
  rewrite !map_map. apply map_ext. intros i. apply softmax_real_row.
Qed.

Lemma nth_scale (i : nat) :
  (i < 5)%nat -> nth i Scaling.scale 0%nat = (5 - i)%nat.
Proof.
  intros Hi. do 5 (destruct i as [|i]; [reflexivity|]). lia.
Qed.

End Sharpening.


(** In exact arithmetic: every row of [x_softmaxes] is a probability distribution, and the
    weight it gives to a largest entry of [x] grows with the factor: it is
    largest in the first row (factor 5) and decreases down the rows, so the
    softmax tends to a one-hot vector as the variance of its input grows. *)
Lemma softmax_sharpens_with_scale_exact (x : vec) (m : nat) :
  (m < length x)%nat -> Forall (fun a => a <= nth m x 0) x ->
  (forall i, (i < 5)%nat ->
     Forall (fun a => 0 < a) (nth i (Scaling.x_softmaxes x) []) /\
     Torch.sumR (nth i (Scaling.x_softmaxes x) []) = 1) /\
  (forall i i', (i <= i')%nat -> (i' < 5)%nat ->
     nth m (nth i' (Scaling.x_softmaxes x) []) 0
     <= nth m (nth i (Scaling.x_softmaxes x) []) 0).
Proof.
  intros Hm Hmax. rewrite x_softmaxes_rows. split.
  - intros i Hi.
    rewrite (nth_map_in _ _ _ _ 0%nat) by (simpl; lia). split.
    + apply softmax_fin_pos.
    + apply softmax_fin_sum. intros H. apply (f_equal (@length R)) in H.
      rewrite length_map in H. simpl in H. lia.
  - intros i i' Hii Hi'.
    rewrite !(nth_map_in _ _ _ _ 0%nat) by (simpl; lia).
    rewrite !nth_scale by lia.
    apply softmax_fin_scale_mono; try assumption. apply le_INR. lia.
Qed.

(** ** Transposition and the linear layers *)
Section Projections.

Lemma dot_bigsum (n : nat) (u w : vec) :
  length u = n -> length w = n ->
  Torch.dot u w = bigsum (fun j => nth j u 0 * nth j w 0) n.
Proof.
  intros Hu Hw. unfold Torch.dot.
  rewrite (list_as_map_seq (Torch.zip_with Rmult u w) 0).
  rewrite length_zip_with, Hu by lia. rewrite sumR_map_seq.
  apply bigsum_ext. intros j Hj. apply nth_zip_with; lia.
Qed.

Lemma shape2_intro {A : Type} (n m : nat) (X : list (list A)) :
  length X = n -> (forall t, (t < n)%nat -> length (nth t X []) = m) ->
  shape2 n m X.
Proof.
  intros Hn HX. split; [exact Hn|]. apply Forall_forall. intros r Hr.
  destruct (In_nth _ _ [] Hr) as [t [Ht <-]]. apply HX. lia.
Qed.

Lemma shape3_map {A : Type} (B n m : nat) (f : matrix -> list (list A))
      (x : tensor3) :
  length x = B -> (forall xb, In xb x -> shape2 n m (f xb)) ->
  shape3 B n m (map f x).
Proof.
  intros HB Hf. split; [now rewrite length_map|].
  apply Forall_forall. intros r Hr. apply in_map_iff in Hr.
  destruct Hr as [xb [<- Hxb]]. now apply Hf.
Qed.

Lemma shape2_transpose (n m : nat) (X : matrix) :
  shape2 n m X -> (0 < n)%nat -> shape2 m n (Torch.transpose X).
Proof.
  intros HX Hn. unfold Torch.transpose.
  rewrite (ncols_shape2 n m X HX Hn). apply shape2_map_seq.
  intros c Hc. unfold Torch.column. rewrite length_map. now destruct HX.
Qed.

Lemma transpose_transpose (n m : nat) (X : matrix) :
  shape2 n m X -> (0 < n)%nat -> (0 < m)%nat ->
  Torch.transpose (Torch.transpose X) = X.
Proof.
  intros HX Hn Hm. pose proof (ncols_shape2 n m X HX Hn) as Hc.
  destruct HX as [Hlen Hrows].
  unfold Torch.transpose at 1. rewrite ncols_transpose by lia.
  transitivity (map (fun j => nth j X []) (seq 0 (length X)));
    [| symmetry; apply list_as_map_seq].
  apply map_ext_in.
  intros j Hj. apply in_seq in Hj. apply column_transpose; [|lia].
  now rewrite Hc.
Qed.

Lemma shape2_lin1 (hs C T : nat) (w xb : matrix) :
  shape2 hs C w -> (0 < hs)%nat -> (0 < C)%nat -> length xb = T ->
  shape2 T hs (lin1 w xb).
Proof.
  intros Hw Hhs HC HT. split; [now rewrite length_lin1|].
  rewrite <- (ncols_transpose_weight hs C w Hw Hhs HC). apply rows_lin1.
Qed.

Lemma nth_linear (w : matrix) (x : tensor3) (b : nat) :
  (b < length x)%nat ->
  nth b (Torch.linear w x) [] = lin1 w (nth b x []).
Proof.
  intros Hb. unfold Torch.linear.
  now rewrite (nth_map_in _ _ _ _ []) by exact Hb.
Qed.

Lemma linear_entry (hs C B T : nat) (w : matrix) (x : tensor3)
      (b t j : nat) :
  shape3 B T C x -> shape2 hs C w -> (0 < C)%nat ->
  (b < B)%nat -> (t < T)%nat -> (j < hs)%nat ->
  nth j (nth t (nth b (Torch.linear w x) []) []) 0
  = bigsum (fun c => nth c (nth t (nth b x []) []) 0 * nth c (nth j w []) 0) C.
Proof.
  intros Hx Hw HC Hb Ht Hj.
  pose proof (shape3_nth B T C x b Hx Hb) as Hxb.
  assert (Hhs : (0 < hs)%nat) by lia.
  rewrite nth_linear by (destruct Hx; lia).
  rewrite lin1_rows.
  rewrite (nth_map_in _ _ _ _ []) by (destruct Hxb; lia).
  rewrite (ncols_transpose_weight hs C w Hw Hhs HC).
  rewrite nth_map_seq by exact Hj.
  rewrite column_transpose.
  - apply dot_bigsum.
    + apply (shape2_nth T C); assumption.
    + apply (shape2_nth hs C); assumption.
  - rewrite (ncols_shape2 hs C w Hw Hhs). now destruct Hw.
  - destruct Hw. lia.
Qed.

End Projections.

(** X7: [m.transpose(-1, -2)] turns a matrix of shape [(n, m)] with
    positive dimensions into one of shape [(m, n)], and transposing twice
    gives the matrix back. *)
Theorem transpose_round_trip (n m : nat) (X : matrix) :
  shape2 n m X -> (0 < n)%nat -> (0 < m)%nat ->
  shape2 m n (Torch.transpose X) /\
  Torch.transpose (Torch.transpose X) = X.
Proof.
  intros HX Hn Hm. split.
  - now apply shape2_transpose.
  - now apply (transpose_transpose n m).
Qed.

Lemma transpose_round_trip_witness :
  Torch.transpose (Torch.transpose (nth 0 x_small [])) = nth 0 x_small [].
Proof.
  apply (transpose_round_trip 3 2 (nth 0 x_small []));
    first [lia | shape].
Defined.



(** ** Shapes and entries of the head *)
Section HeadEntries.
Variables (h : Version4.head) (B T C : nat) (x : tensor3).
Hypothesis Hx : shape3 B T C x.
Hypothesis Hh : Version4.head_shape C h.
Hypothesis Hhs : (0 < Version4.head_size h)%nat.
Hypothesis HC : (0 < C)%nat.

Lemma shape_in_batch (xb : matrix) : In xb x -> shape2 T C xb.
Proof.
  intros Hin. destruct Hx as [_ H]. rewrite Forall_forall in H. now apply H.
Qed.

Lemma shape_linear (w : matrix) :
  shape2 (Version4.head_size h) C w ->
  shape3 B T (Version4.head_size h) (Torch.linear w x).
Proof.
  intros Hw. unfold Torch.linear. apply shape3_map; [now destruct Hx|].
  intros xb Hin. apply (shape2_lin1 _ C); try assumption.
  now destruct (shape_in_batch xb Hin).
Qed.

Lemma shape_wei_scaled : shape3 B T T (Version4.wei_scaled h x).
Proof.
  rewrite wei_scaled_batch. apply shape3_map; [now destruct Hx|].
  intros xb Hin. destruct Hh as [_ [Hkey _]].
  apply (shape_head_scores h C); try assumption.
  now apply shape_in_batch.
Qed.

Lemma shape_wei : shape3 B T T (Version4.wei h T x).
Proof.
  rewrite wei_batch. apply shape3_map; [now destruct Hx|].
  intros xb Hin. destruct Hh as [_ [Hkey _]].
  pose proof (shape_in_batch xb Hin) as Hxb.
  apply shape2_intro.
  - now apply (length_head_weights h C).
  - intros t Ht. rewrite (head_weights_row h C T xb) by assumption.
    rewrite length_app, length_softmax_fin, repeat_length.
    unfold prefix_scores. rewrite length_map, length_seq. lia.
Qed.

Lemma shape_out : shape3 B T (Version4.head_size h) (Version4.out h T x).
Proof.
  rewrite out_batch. apply shape3_map; [now destruct Hx|].
  intros xb Hin. destruct Hh as [_ [Hkey Hval]].
  pose proof (shape_in_batch xb Hin) as Hxb.
  apply shape2_intro.
  - unfold head_out, Torch.matmul. rewrite length_map.
    now apply (length_head_weights h C).
  - intros t Ht. rewrite (head_out_row h C T xb) by assumption.
    unfold prefix_out. rewrite length_map, length_seq.
    rewrite ncols_lin1.
    + now apply (ncols_transpose_weight _ C).
    + intros H. apply (f_equal (@length (list R))) in H.
      rewrite length_firstn in H. destruct Hxb as [HT _].
      rewrite HT in H. simpl length in H. lia.
Qed.

Lemma nth_q_row (b t : nat) :
  (b < B)%nat ->
  nth t (nth b (Version4.q h x) []) []
  = nth t (lin1 (Version4.query h) (nth b x [])) [].
Proof.
  intros Hb. unfold Version4.q.
  now rewrite nth_linear by (destruct Hx; lia).
Qed.

Lemma nth_k_row (b t : nat) :
  (b < B)%nat ->
  nth t (nth b (Version4.k h x) []) []
  = nth t (lin1 (Version4.key h) (nth b x [])) [].
Proof.
  intros Hb. unfold Version4.k.
  now rewrite nth_linear by (destruct Hx; lia).
Qed.

Lemma nth_v_row (b t : nat) :
  (b < B)%nat ->
  nth t (nth b (Version4.v h x) []) []
  = nth t (lin1 (Version4.value h) (nth b x [])) [].
Proof.
  intros Hb. unfold Version4.v.
  now rewrite nth_linear by (destruct Hx; lia).
Qed.

Lemma length_lin1_row (w : matrix) (xb : matrix) (t : nat) :
  shape2 (Version4.head_size h) C w -> (t < length xb)%nat ->
  length (nth t (lin1 w xb) []) = Version4.head_size h.
Proof.
  intros Hw Ht.
  apply (shape2_nth (length xb) (Version4.head_size h)); [|exact Ht].
  now apply (shape2_lin1 _ C).
Qed.

Lemma wei_scaled_entry (b t j : nat) :
  (b < B)%nat -> (t < T)%nat -> (j < T)%nat ->
  nth j (nth t (nth b (Version4.wei_scaled h x) []) []) 0
  = bigsum (fun i => nth i (nth t (nth b (Version4.q h x) []) []) 0
                     * nth i (nth j (nth b (Version4.k h x) []) []) 0)
           (Version4.head_size h)
    * Version4.scale h.
Proof.
  intros Hb Ht Hj. destruct Hh as [Hq [Hk _]].
  pose proof (shape3_nth B T C x b Hx Hb) as Hxb.
  rewrite wei_scaled_batch.
  rewrite (nth_map_in _ _ _ _ []) by (destruct Hx; lia).
  rewrite (head_scores_rows h C T _ Hxb Hk Hhs HC).
  rewrite nth_map_seq by exact Ht. rewrite nth_map_seq by exact Hj.
  rewrite nth_q_row, nth_k_row by exact Hb. f_equal.
  destruct Hxb as [HT _].
  apply dot_bigsum; apply length_lin1_row; (assumption || lia).
Qed.

End HeadEntries.

(** X9: with an input of shape [(B, T, C)], the projections [q], [k] and
    [v] have shape [(B, T, head_size)], the scores and the weights [wei]
    have shape [(B, T, T)], and [out] has shape [(B, T, head_size)], as
    [out.shape] prints. *)
Theorem head_shapes (h : Version4.head) (B T C : nat) (x : tensor3) :
  shape3 B T C x -> Version4.head_shape C h ->
  (0 < Version4.head_size h)%nat -> (0 < C)%nat ->
  shape3 B T (Version4.head_size h) (Version4.q h x) /\
  shape3 B T (Version4.head_size h) (Version4.k h x) /\
  shape3 B T (Version4.head_size h) (Version4.v h x) /\
  shape3 B T T (Version4.wei_scaled h x) /\
  shape3 B T T (Version4.wei h T x) /\
  shape3 B T (Version4.head_size h) (Version4.out h T x).
Proof.
  intros Hx Hh Hhs HC. pose proof Hh as [Hq [Hk Hv]].
  unfold Version4.q, Version4.k, Version4.v.
  repeat split;
    first [ apply (shape_linear h B T C x); assumption
          | apply (shape_wei_scaled h B T C x); assumption
          | apply (shape_wei h B T C x); assumption
          | apply (shape_out h B T C x); assumption ].
Qed.

Lemma head_shapes_witness :
  shape3 2 3 2 (Version4.out head_small 3 x_small).
Proof.
  exact (proj2 (proj2 (proj2 (proj2 (proj2
    (head_shapes head_small 2 3 2 x_small
       ltac:(shape) ltac:(shape) ltac:(side) ltac:(side))))))).
Defined.



(** ** Weighted sums with softmax weights *)
Section WeightedSums.

Lemma bigsum_div (f : nat -> R) (s : R) (n : nat) :
  bigsum (fun j => f j / s) n = bigsum f n / s.
Proof.
  induction n as [|n IH]; simpl; [unfold Rdiv; ring|].
  rewrite IH. unfold Rdiv. ring.
Qed.

Lemma sumR_as_bigsum (l : vec) (f : R -> R) :
  Torch.sumR (map f l) = bigsum (fun j => f (nth j l 0)) (length l).
Proof.
  rewrite (list_as_map_seq l 0) at 1. rewrite map_map. apply sumR_map_seq.
Qed.

Lemma dot_softmax_fin (n : nat) (L col : vec) :
  length L = n -> length col = n ->
  Torch.dot (softmax_fin L) col
  = bigsum (fun j => exp (nth j L 0) * nth j col 0) n
    / bigsum (fun j => exp (nth j L 0)) n.
Proof.
  intros HL Hcol. subst n.
  rewrite (dot_bigsum (length L))
    by (rewrite ?length_softmax_fin; assumption || reflexivity).
  rewrite <- bigsum_div, <- (sumR_as_bigsum L exp).
  apply bigsum_ext. intros j Hj.
  rewrite nth_softmax_fin by lia. unfold Rdiv. ring.
Qed.

Lemma dot_weights_bounds (lo hi : R) (w col : vec) :
  Forall (fun a => 0 <= a) w -> length col = length w ->
  Forall (fun a => lo <= a <= hi) col ->
  lo * Torch.sumR w <= Torch.dot w col <= hi * Torch.sumR w.
Proof.
  revert col. induction w as [|a w IH]; intros [|b col] Hw Hlen Hcol;
    try discriminate.
  - unfold Torch.dot. simpl. lra.
  - rewrite dot_cons.
    change (Torch.sumR (a :: w)) with (a + Torch.sumR w).
    inversion Hw as [|? ? Ha Hw']. inversion Hcol as [|? ? Hb Hcol']. subst.
    injection Hlen as Hlen.
    specialize (IH col Hw' Hlen Hcol'). nra.
Qed.

Lemma dot_softmax_bounds (lo hi : R) (L col : vec) :
  L <> [] -> length col = length L ->
  Forall (fun a => lo <= a <= hi) col ->
  lo <= Torch.dot (softmax_fin L) col <= hi.
Proof.
  intros HL Hlen Hcol.
  pose proof (dot_weights_bounds lo hi (softmax_fin L) col) as H.
  rewrite softmax_fin_sum, !Rmult_1_r in H by exact HL. apply H.
  - eapply Forall_impl; [|apply softmax_fin_pos]. intros a Ha. lra.
  - now rewrite length_softmax_fin.
  - exact Hcol.
Qed.

Lemma Forall_nth_intro {A : Type} (P : A -> Prop) (l : list A) (d : A) :
  (forall i, (i < length l)%nat -> P (nth i l d)) -> Forall P l.
Proof.
  intros H. apply Forall_forall. intros a Ha.
  destruct (In_nth _ _ d Ha) as [i [Hi <-]]. now apply H.
Qed.


End WeightedSums.

Section HeadOutput.
Variables (h : Version4.head) (B T C : nat) (x : tensor3).
Hypothesis Hx : shape3 B T C x.
Hypothesis Hh : Version4.head_shape C h.
Hypothesis Hhs : (0 < Version4.head_size h)%nat.
Hypothesis HC : (0 < C)%nat.

Lemma prefix_scores_scaled (b t j : nat) :
  (b < B)%nat -> (t < T)%nat -> (j <= t)%nat ->
  nth j (prefix_scores h t (firstn (S t) (nth b x []))) 0
  = nth j (nth t (nth b (Version4.wei_scaled h x) []) []) 0.
Proof.
  intros Hb Ht Hj. destruct Hh as [_ [Hk _]].
  pose proof (shape3_nth B T C x b Hx Hb) as Hxb.
  rewrite wei_scaled_batch.
  rewrite (nth_map_in _ _ _ _ []) by (destruct Hx; lia).
  rewrite (head_scores_rows h C T _ Hxb Hk Hhs HC).
  rewrite nth_map_seq by exact Ht. rewrite nth_map_seq by lia.
  unfold prefix_scores. rewrite nth_map_seq by lia.
  now rewrite !nth_lin1_prefix by lia.
Qed.

Lemma length_prefix (b t : nat) :
  (b < B)%nat -> (t < T)%nat -> length (firstn (S t) (nth b x [])) = S t.
Proof.
  intros Hb Ht. destruct (shape3_nth B T C x b Hx Hb) as [HT _].
  rewrite length_firstn. lia.
Qed.

Lemma prefix_value_column (b t c j : nat) :
  (b < B)%nat -> (j <= t)%nat ->
  nth j (Torch.column c (lin1 (Version4.value h)
                              (firstn (S t) (nth b x [])))) 0
  = nth c (nth j (nth b (Version4.v h x) []) []) 0.
Proof.
  intros Hb Hj. rewrite (nth_v_row h B T C x) by assumption.
  rewrite <- (nth_lin1_prefix (S t) j) by lia.
  unfold Torch.column.
  destruct (Nat.lt_ge_cases j
              (length (lin1 (Version4.value h) (firstn (S t) (nth b x [])))))
    as [Hlt|Hge].
  - now rewrite (nth_map_in (fun row => nth c row 0) _ _ _ []).
  - rewrite (nth_overflow (map _ _)) by (rewrite length_map; exact Hge).
    rewrite (nth_overflow (lin1 _ _)) by exact Hge. now destruct c.
Qed.

Lemma nth_out_entry (b t c : nat) :
  (b < B)%nat -> (t < T)%nat -> (c < Version4.head_size h)%nat ->
  nth c (nth t (nth b (Version4.out h T x) []) []) 0
  = Torch.dot (softmax_fin (prefix_scores h t (firstn (S t) (nth b x []))))
              (Torch.column c (lin1 (Version4.value h)
                                    (firstn (S t) (nth b x [])))).
Proof.
  intros Hb Ht Hc. rewrite (nth_out h B T C x b t) by assumption.
  unfold prefix_out. destruct Hh as [_ [_ Hv]].
  rewrite ncols_lin1.
  - rewrite (ncols_transpose_weight (Version4.head_size h) C)
      by assumption.
    now rewrite nth_map_seq.
  - intros H. apply (f_equal (@length (list R))) in H.
    rewrite length_prefix in H by assumption. discriminate.
Qed.

End HeadOutput.

(** In exact arithmetic: the output of the head is scaled dot-product attention over the
    visible positions: with [s j] the scaled score of position [t] against
    position [j], [out[b, t, c]] is the sum over [j <= t] of
    [exp (s j) * v[b, j, c]] divided by the sum over [j <= t] of
    [exp (s j)]. *)
Lemma attention_formula_exact (h : Version4.head) (B T C : nat) (x : tensor3)
        (b t c : nat) :
  shape3 B T C x -> Version4.head_shape C h ->
  (0 < Version4.head_size h)%nat -> (0 < C)%nat ->
  (b < B)%nat -> (t < T)%nat -> (c < Version4.head_size h)%nat ->
  nth c (nth t (nth b (Version4.out h T x) []) []) 0
  = bigsum (fun j =>
              exp (nth j (nth t (nth b (Version4.wei_scaled h x) []) []) 0)
              * nth c (nth j (nth b (Version4.v h x) []) []) 0) (t + 1)
    / bigsum (fun j =>
                exp (nth j (nth t (nth b (Version4.wei_scaled h x) []) []) 0))
             (t + 1).
Proof.
  intros Hx Hh Hhs HC Hb Ht Hc.
  rewrite (nth_out_entry h B T C x) by assumption.
  rewrite (dot_softmax_fin (S t)).
  - rewrite Nat.add_1_r. f_equal.
    + apply bigsum_ext. intros j Hj.
      rewrite (prefix_scores_scaled h B T C x) by (assumption || lia).
      rewrite (prefix_value_column h B T C x) by (assumption || lia).
      reflexivity.
    + apply bigsum_ext. intros j Hj.
      now rewrite (prefix_scores_scaled h B T C x) by (assumption || lia).
  - unfold prefix_scores. now rewrite length_map, length_seq.
  - unfold Torch.column. rewrite length_map, length_lin1.
    eapply length_prefix; eassumption.
Qed.

(** In exact arithmetic: every entry of [out[b, t]] is a weighted mean of the values at the
    positions [0 .. t]: it lies between any bounds that hold for
    [v[b, 0, c] .. v[b, t, c]]. *)
Lemma attention_output_bounds_exact (h : Version4.head) (B T C : nat)
        (x : tensor3) (b t c : nat) (lo hi : R) :
  shape3 B T C x -> Version4.head_shape C h ->
  (0 < Version4.head_size h)%nat -> (0 < C)%nat ->
  (b < B)%nat -> (t < T)%nat -> (c < Version4.head_size h)%nat ->
  (forall j, (j <= t)%nat ->
     lo <= nth c (nth j (nth b (Version4.v h x) []) []) 0 <= hi) ->
  lo <= nth c (nth t (nth b (Version4.out h T x) []) []) 0 <= hi.
Proof.
  intros Hx Hh Hhs HC Hb Ht Hc Hv.
  rewrite (nth_out_entry h B T C x) by assumption.
  assert (Hcol : length (Torch.column c
            (lin1 (Version4.value h) (firstn (S t) (nth b x [])))) = S t).
  { unfold Torch.column. rewrite length_map, length_lin1.
    eapply length_prefix; eassumption. }
  apply dot_softmax_bounds.
  - unfold prefix_scores. rewrite seq_S, map_app. simpl.
    intros H. apply app_eq_nil in H. destruct H; discriminate.
  - rewrite Hcol. unfold prefix_scores. now rewrite length_map, length_seq.
  - apply (Forall_nth_intro _ _ 0). intros j Hj. rewrite Hcol in Hj.
    rewrite (prefix_value_column h B T C x) by (assumption || lia).
    apply Hv. lia.
Qed.

(** ** Attention with zero queries *)
Section ZeroQuery.



End ZeroQuery.



(** X16: batch elements never mix: the weights and the output at batch
    index [b] are computed from [x[b]] alone, so two batches with the same
    element at [b] give the same [wei[b]] and [out[b]]. *)
Theorem batch_elements_independent (h : Version4.head) (T : nat)
        (x x' : tensor3) (b : nat) :
  (b < length x)%nat -> (b < length x')%nat ->
  nth b x [] = nth b x' [] ->
  nth b (Version4.wei h T x) [] = nth b (Version4.wei h T x') [] /\
  nth b (Version4.out h T x) [] = nth b (Version4.out h T x') [] /\
  nth b (Version2.xbow2 T x) [] = nth b (Version2.xbow2 T x') [] /\
  nth b (Version3.xbow3 T x) [] = nth b (Version3.xbow3 T x') [].
Proof.
  intros Hb Hb' Heq. rewrite !wei_batch, !out_batch.
  unfold Version2.xbow2, Version3.xbow3, Torch.matmul_bcast.
  rewrite !(nth_map_in _ _ _ _ []) by assumption.
  now rewrite Heq.
Qed.

Lemma batch_elements_independent_witness :
  nth 1 (Version4.out head_small 3 x_small) []
  = nth 1 (Version4.out head_small 3 x_small') [].
Proof.
  exact (proj1 (proj2 (batch_elements_independent head_small 3
    x_small x_small' 1 ltac:(simpl; lia) ltac:(simpl; lia)
    ltac:(reflexivity)))).
Defined.

(** ** Running means *)

(** X17: the averages of version 1 obey the running-mean recurrence:
    [(t + 2) * xbow1[b, t + 1, c] = (t + 1) * xbow1[b, t, c]
    + x[b, t + 1, c]]. *)
Theorem xbow1_running_mean (B T C : nat) (x : tensor3) (b t c : nat) :
  shape3 B T C x -> (b < B)%nat -> (t + 1 < T)%nat -> (c < C)%nat ->
  INR (t + 2) * nth c (nth (t + 1) (nth b (Version1.xbow1 B T C x) []) []) 0
  = INR (t + 1) * nth c (nth t (nth b (Version1.xbow1 B T C x) []) []) 0
    + nth c (nth (t + 1) (nth b x []) []) 0.
Proof.
  intros Hx Hb Ht Hc.
  pose proof (shape3_nth B T C x b Hx Hb) as Hxb.
  assert (Hnc : Torch.ncols (nth b x []) = C)
    by (apply (ncols_shape2 T C); [exact Hxb | lia]).
  rewrite !nth_xbow1 by lia.
  rewrite !mean_prefix_entry by (destruct Hxb; lia).
  replace (t + 1 + 1)%nat with (S (t + 1)) by lia.
  replace (t + 2)%nat with (S (t + 1)) by lia.
  cbn [bigsum].
  assert (H1 : INR (t + 1) <> 0) by (apply not_0_INR; lia).
  assert (H2 : INR (S (t + 1)) <> 0) by (apply not_0_INR; lia).
  field. split; assumption.
Qed.

Lemma xbow1_running_mean_witness :
  INR (0 + 2) * nth 0 (nth (0 + 1) (nth 0 (Version1.xbow1 2 3 2 x_small) [])
                           []) 0
  = INR (0 + 1) * nth 0 (nth 0 (nth 0 (Version1.xbow1 2 3 2 x_small) []) []) 0
    + nth 0 (nth (0 + 1) (nth 0 x_small []) []) 0.
Proof. apply (xbow1_running_mean 2 3 2 x_small); side. Defined.

(** In exact arithmetic: each average of version 1 lies between any bounds that hold for
    the entries it averages: if [lo <= x[b, s, c] <= hi] for all [s <= t]
    then [lo <= xbow1[b, t, c] <= hi]. *)
Lemma xbow1_between_bounds_exact (B T C : nat) (x : tensor3) (b t c : nat)
        (lo hi : R) :
  shape3 B T C x -> (b < B)%nat -> (t < T)%nat -> (c < C)%nat ->
  (forall s, (s <= t)%nat ->
     lo <= nth c (nth s (nth b x []) []) 0 <= hi) ->
  lo <= nth c (nth t (nth b (Version1.xbow1 B T C x) []) []) 0 <= hi.
Proof.
  intros Hx Hb Ht Hc Hbound.
  pose proof (shape3_nth B T C x b Hx Hb) as Hxb.
  rewrite nth_xbow1 by assumption.
  rewrite mean_prefix_entry;
    [| destruct Hxb; lia
     | rewrite (ncols_shape2 T C); [exact Hc | exact Hxb | lia] ].
  rewrite Nat.add_1_r.
  assert (Hsum : forall n, (n <= S t)%nat ->
            lo * INR n
            <= bigsum (fun s => nth c (nth s (nth b x []) []) 0) n
            <= hi * INR n).
  { induction n as [|n IH]; intros Hn; [simpl; lra|].
    rewrite S_INR. cbn [bigsum].
    specialize (IH ltac:(lia)). specialize (Hbound n ltac:(lia)). lra. }
  specialize (Hsum (S t) (le_n _)).
  assert (Hpos : 0 < INR (S t)) by (apply lt_0_INR; lia).
  split.
  - apply (Rmult_le_reg_r (INR (S t))); [exact Hpos|].
    unfold Rdiv. rewrite Rmult_assoc, Rinv_l by lra. lra.
  - apply (Rmult_le_reg_r (INR (S t))); [exact Hpos|].
    unfold Rdiv. rewrite Rmult_assoc, Rinv_l by lra. lra.
Qed.


(** * Within the range of 32-bit floats *)
Section RangeFacts.

Lemma Rabs_bounds (a M : R) : Rabs a <= M -> - M <= a <= M.
Proof. intros H. unfold Rabs in H. destruct (Rcase_abs a); lra. Qed.

Lemma bounded2_nth (M : R) (m : matrix) (t c : nat) :
  bounded2 M m -> (t < length m)%nat -> (c < length (nth t m []))%nat ->
  Rabs (nth c (nth t m []) 0) <= M.
Proof.
  intros Hm Ht Hc. unfold bounded2 in Hm. rewrite Forall_forall in Hm.
  specialize (Hm (nth t m []) (nth_In _ _ Ht)).
  rewrite Forall_forall in Hm. apply Hm. now apply nth_In.
Qed.

Lemma bounded3_nth (M : R) (B T C : nat) (x : tensor3) (b t c : nat) :
  shape3 B T C x -> bounded3 M x ->
  (b < B)%nat -> (t < T)%nat -> (c < C)%nat ->
  Rabs (nth c (nth t (nth b x []) []) 0) <= M.
Proof.
  intros Hx HM Hb Ht Hc.
  pose proof (shape3_nth B T C x b Hx Hb) as Hxb.
  unfold bounded3 in HM. rewrite Forall_forall in HM.
  apply bounded2_nth.
  - apply HM. apply nth_In. destruct Hx. lia.
  - destruct Hxb. lia.
  - rewrite (shape2_nth T C _ t Hxb Ht). exact Hc.
Qed.

Lemma bigsum_abs_le (f : nat -> R) (M : R) (n : nat) :
  (forall s, (s < n)%nat -> Rabs (f s) <= M) ->
  Rabs (bigsum f n) <= INR n * M.
Proof.
  induction n as [|n IH]; intros Hf.
  - simpl. rewrite Rabs_R0. lra.
  - rewrite S_INR. cbn [bigsum].
    pose proof (Rabs_triang (bigsum f n) (f n)) as Htri.
    specialize (IH ltac:(intros s Hs; apply Hf; lia)).
    specialize (Hf n ltac:(lia)). lra.
Qed.

Lemma bound_nonneg (M : R) (B T C : nat) (x : tensor3) :
  shape3 B T C x -> bounded3 M x ->
  (0 < B)%nat -> (0 < T)%nat -> (0 < C)%nat -> 0 <= M.
Proof.
  intros Hx HM HB HT HC.
  pose proof (bounded3_nth M B T C x 0 0 0 Hx HM HB HT HC) as H.
  pose proof (Rabs_pos (nth 0 (nth 0 (nth 0 x []) []) 0)). lra.
Qed.

(** The partial sums that version 1 forms stay in the range. *)
Lemma prefix_sums_in_range (M : R) (B T C : nat) (x : tensor3)
      (b t c n : nat) :
  shape3 B T C x -> bounded3 M x -> sums_in_range T M ->
  (b < B)%nat -> (t < T)%nat -> (c < C)%nat -> (n <= t + 1)%nat ->
  2 * Rabs (bigsum (fun s => nth c (nth s (nth b x []) []) 0) n) <= f32_max.
Proof.
  intros Hx HM HR Hb Ht Hc Hn.
  assert (H0 : 0 <= M) by (apply (bound_nonneg M B T C x); assumption || lia).
  assert (Hsum : Rabs (bigsum (fun s => nth c (nth s (nth b x []) []) 0) n)
                 <= INR n * M).
  { apply bigsum_abs_le. intros s Hs.
    apply (bounded3_nth M B T C); assumption || lia. }
  assert (HnT : INR n <= INR T) by (apply le_INR; lia).
  unfold sums_in_range in HR. nra.
Qed.

End RangeFacts.

(** C1: on an input of shape [(B, T, C)] whose entries keep every
    sum within the range of 32-bit floats, the nested loops of version 1,
    the normalised triangular product of version 2 and the masked softmax
    of version 3 build the same tensor in exact arithmetic, and every entry
    of it stays within the bound of the input. *)
Theorem xbow_versions_equal_in_range (B T C : nat) (x : tensor3) (M : R) :
  shape3 B T C x -> bounded3 M x -> sums_in_range T M ->
  Version1.xbow1 B T C x = Version2.xbow2 T x /\
  Version2.xbow2 T x = Version3.xbow3 T x /\
  forall b t c, (b < B)%nat -> (t < T)%nat -> (c < C)%nat ->
    Rabs (nth c (nth t (nth b (Version1.xbow1 B T C x) []) []) 0) <= M.
Proof.
  intros Hx HM HR.
  split; [now apply xbow1_eq_xbow2|]. split; [apply xbow2_eq_xbow3|].
  intros b t c Hb Ht Hc. apply Rabs_le.
  apply (xbow1_between_bounds_exact B T C x b t c (- M) M);
    try assumption.
  intros s Hs. apply Rabs_bounds.
  apply (bounded3_nth M B T C); assumption || lia.
Qed.

(** C2: while the sums stay within the range of 32-bit floats,
    version 1 is average pooling over the causal prefix: [xbow1[b, t, c]]
    is the arithmetic mean of [x[b, 0, c] .. x[b, t, c]], position [t]
    included; each partial sum and the mean itself stay in the range, and
    [xbow1] has the shape [(B, T, C)] of [x]. *)
Theorem xbow1_prefix_mean_in_range (B T C : nat) (x : tensor3) (M : R) :
  shape3 B T C x -> bounded3 M x -> sums_in_range T M ->
  shape3 B T C (Version1.xbow1 B T C x) /\
  forall b t c, (b < B)%nat -> (t < T)%nat -> (c < C)%nat ->
    nth c (nth t (nth b (Version1.xbow1 B T C x) []) []) 0
    = bigsum (fun s => nth c (nth s (nth b x []) []) 0) (t + 1)
      / INR (t + 1) /\
    (forall n, (n <= t + 1)%nat ->
       2 * Rabs (bigsum (fun s => nth c (nth s (nth b x []) []) 0) n)
       <= f32_max) /\
    Rabs (nth c (nth t (nth b (Version1.xbow1 B T C x) []) []) 0) <= M.
Proof.
  intros Hx HM HR.
  destruct (xbow1_prefix_mean_exact B T C x Hx) as [Hshape Hmean].
  split; [exact Hshape|]. intros b t c Hb Ht Hc.
  split; [now apply Hmean|]. split.
  - intros n Hn. now apply (prefix_sums_in_range M B T C x b t c n).
  - apply Rabs_le.
    apply (xbow1_between_bounds_exact B T C x b t c (- M) M);
      try assumption.
    intros s Hs. apply Rabs_bounds.
    apply (bounded3_nth M B T C); assumption || lia.
Qed.

Ltac bounded :=
  unfold bounded3, bounded2;
  repeat (apply Forall_cons || apply Forall_nil);
  apply Rabs_le; simpl; lra.
Ltac in_range := unfold sums_in_range, f32_max; simpl; lra.

Lemma xbow_versions_equal_in_range_witness :
  Version1.xbow1 2 3 2 x_small = Version2.xbow2 3 x_small /\
  Version2.xbow2 3 x_small = Version3.xbow3 3 x_small.
Proof.
  destruct (xbow_versions_equal_in_range 2 3 2 x_small 6
              ltac:(shape) ltac:(bounded) ltac:(in_range)) as [H1 [H2 _]].
  split; assumption.
Defined.

Lemma xbow1_prefix_mean_in_range_witness :
  nth 0 (nth 1 (nth 0 (Version1.xbow1 2 3 2 x_small) []) []) 0 = 2.
Proof.
  rewrite (proj1 (proj2 (xbow1_prefix_mean_in_range 2 3 2 x_small 6
    ltac:(shape) ltac:(bounded) ltac:(in_range)) 0%nat 1%nat 0%nat
    ltac:(lia) ltac:(lia) ltac:(lia))).
  simpl. lra.
Defined.

(** In 32-bit floats the sum of two entries [3e38] overflows before the
    division, so the mean that version 1 stores is infinite, while the
    products of versions 2 and 3 halve each entry first. *)
Lemma xbow_versions_differ_f32 :
  F32.xbow1 1 2 1 F32.x_big = [ [ [F32.big]; [F32.inf] ] ] /\
  F32.xbow2 2 F32.x_big = [ [ [F32.big]; [F32.big] ] ] /\
  F32.xbow3 2 F32.x_big = Some [ [ [F32.big]; [F32.big] ] ] /\
  F32.xbow1 1 2 1 F32.x_big <> F32.xbow2 2 F32.x_big.
Proof.
  repeat split; try (vm_compute; reflexivity).
  intros H. vm_compute in H. discriminate H.
Qed.

(** Both entries of the prefix are [3e38], and so is their mean, but the
    entry that version 1 computes in 32-bit floats is infinite. *)
Lemma xbow1_mean_overflows_f32 :
  nth 0 (nth 0 (nth 0 F32.x_big []) []) F32.zero = F32.big /\
  nth 0 (nth 1 (nth 0 F32.x_big []) []) F32.zero = F32.big /\
  nth 0 (nth 1 (nth 0 (F32.xbow1 1 2 1 F32.x_big) []) []) F32.zero = F32.inf /\
  F32.inf <> F32.big.
Proof.
  repeat split; try (vm_compute; reflexivity).
  intros H. vm_compute in H. discriminate H.
Qed.

Section HeadRange.
Variables (h : Version4.head) (B T C : nat) (x : tensor3) (X W : R).
Hypothesis Hx : shape3 B T C x.
Hypothesis Hh : Version4.head_shape C h.
Hypothesis Hhs : (0 < Version4.head_size h)%nat.
Hypothesis HC : (0 < C)%nat.
Hypothesis HR : head_in_range h C x X W.

Lemma linear_entry_bound (w : matrix) (b t j : nat) :
  shape2 (Version4.head_size h) C w -> bounded2 W w ->
  (b < B)%nat -> (t < T)%nat -> (j < Version4.head_size h)%nat ->
  Rabs (nth j (nth t (nth b (Torch.linear w x) []) []) 0)
  <= INR C * (X * W).
Proof.
  intros Hw HW Hb Ht Hj. destruct HR as [HX _].
  rewrite (linear_entry (Version4.head_size h) C B T) by assumption.
  apply bigsum_abs_le. intros c Hc. rewrite Rabs_mult.
  assert (H1 : Rabs (nth c (nth t (nth b x []) []) 0) <= X)
    by (apply (bounded3_nth X B T C); assumption).
  assert (H2 : Rabs (nth c (nth j w []) 0) <= W).
  { apply bounded2_nth; [exact HW | destruct Hw; lia |].
    rewrite (shape2_nth _ C w j Hw Hj). exact Hc. }
  pose proof (Rabs_pos (nth c (nth t (nth b x []) []) 0)).
  pose proof (Rabs_pos (nth c (nth j w []) 0)).
  apply Rmult_le_compat; assumption.
Qed.

Lemma value_entry_bound (b t j : nat) :
  (b < B)%nat -> (t < T)%nat -> (j < Version4.head_size h)%nat ->
  Rabs (nth j (nth t (nth b (Version4.v h x) []) []) 0) <= INR C * (X * W).
Proof.
  intros Hb Ht Hj. destruct Hh as [_ [_ Hv]].
  destruct HR as [_ [_ [_ [HWv _]]]].
  unfold Version4.v. now apply linear_entry_bound.
Qed.

Lemma out_entry_bound (b t c : nat) :
  (b < B)%nat -> (t < T)%nat -> (c < Version4.head_size h)%nat ->
  Rabs (nth c (nth t (nth b (Version4.out h T x) []) []) 0)
  <= INR C * (X * W).
Proof.
  intros Hb Ht Hc. apply Rabs_le.
  apply (attention_output_bounds_exact h B T C x b t c); try assumption.
  intros j Hj. apply Rabs_bounds. apply value_entry_bound; assumption || lia.
Qed.

Lemma scale_le_1 : 0 < Version4.scale h <= 1.
Proof.
  unfold Version4.scale. split; [apply exp_pos|].
  destruct (Nat.eq_dec (Version4.head_size h) 1) as [H1|H1].
  - rewrite H1. unfold Rpower. simpl INR. rewrite ln_1, Rmult_0_r, exp_0. lra.
  - left. apply scale_lt_1. lia.
Qed.

Lemma score_entry_bound (b t j : nat) :
  (b < B)%nat -> (t < T)%nat -> (j < T)%nat ->
  Rabs (nth j (nth t (nth b (Version4.wei_scaled h x) []) []) 0)
  <= INR (Version4.head_size h)
     * ((INR C * (X * W)) * (INR C * (X * W))).
Proof.
  intros Hb Ht Hj. pose proof Hh as [Hq [Hk _]].
  pose proof HR as [_ [HWq [HWk _]]].
  rewrite (wei_scaled_entry h B T C x) by assumption.
  rewrite Rabs_mult. pose proof scale_le_1 as [Hs0 Hs1].
  rewrite (Rabs_pos_eq (Version4.scale h)) by lra.
  assert (Hsum : Rabs (bigsum
            (fun i => nth i (nth t (nth b (Version4.q h x) []) []) 0
                      * nth i (nth j (nth b (Version4.k h x) []) []) 0)
            (Version4.head_size h))
          <= INR (Version4.head_size h)
             * ((INR C * (X * W)) * (INR C * (X * W)))).
  { apply bigsum_abs_le. intros i Hi. rewrite Rabs_mult.
    apply Rmult_le_compat; try apply Rabs_pos.
    - unfold Version4.q. now apply linear_entry_bound.
    - unfold Version4.k. now apply linear_entry_bound. }
  pose proof (Rabs_pos (bigsum
            (fun i => nth i (nth t (nth b (Version4.q h x) []) []) 0
                      * nth i (nth j (nth b (Version4.k h x) []) []) 0)
            (Version4.head_size h))).
  nra.
Qed.

End HeadRange.

(** C3: the causal mask lets no position attend to a later one.
    In versions 3 and 4 the weight at row [i], column [j] is exactly 0
    whenever [j > i].  Hence, as long as the inputs and the weights keep
    every value within the range of 32-bit floats, two inputs that agree on
    the positions [0 .. t] of batch element [b] give the same output row
    [out[b, t]] and the same [xbow3[b, t]]; the values and the outputs
    themselves stay in the range. *)
Theorem causal_mask_blocks_future_in_range :
  (forall T i j, (i < T)%nat -> (j < T)%nat -> (i < j)%nat ->
     nth j (nth i (Version3.wei T) []) 0 = 0) /\
  (forall h B T C x X W b i j,
     shape3 B T C x -> Version4.head_shape C h ->
     (0 < Version4.head_size h)%nat -> (0 < C)%nat ->
     head_in_range h C x X W ->
     (b < B)%nat -> (i < T)%nat -> (j < T)%nat -> (i < j)%nat ->
     nth j (nth i (nth b (Version4.wei h T x) []) []) 0 = 0) /\
  (forall h B T C x x' X W b t,
     shape3 B T C x -> shape3 B T C x' -> Version4.head_shape C h ->
     (0 < Version4.head_size h)%nat -> (0 < C)%nat ->
     head_in_range h C x X W -> head_in_range h C x' X W ->
     sums_in_range T X ->
     (b < B)%nat -> (t < T)%nat ->
     firstn (t + 1) (nth b x []) = firstn (t + 1) (nth b x' []) ->
     nth t (nth b (Version4.out h T x) []) []
     = nth t (nth b (Version4.out h T x') []) [] /\
     nth t (nth b (Version3.xbow3 T x) []) []
     = nth t (nth b (Version3.xbow3 T x') []) [] /\
     forall c, (c < Version4.head_size h)%nat ->
       (forall j, (j < T)%nat ->
          2 * Rabs (nth c (nth j (nth b (Version4.v h x) []) []) 0)
          <= f32_max) /\
       2 * Rabs (nth c (nth t (nth b (Version4.out h T x) []) []) 0)
       <= f32_max).
Proof.
  destruct causal_mask_blocks_future_exact as [H3 [H4 Hout]].
  split; [exact H3|]. split.
  - intros h B T C x X W b i j Hx Hh Hhs HC HR. now apply (H4 h B T C).
  - intros h B T C x x' X W b t Hx Hx' Hh Hhs HC HR HR' HS Hb Ht Hpre.
    destruct (Hout h B T C x x' b t Hx Hx' Hh Hhs HC Hb Ht Hpre)
      as [Ho Hx3].
    split; [exact Ho|]. split; [exact Hx3|].
    pose proof HR as [_ [_ [_ [_ [HV _]]]]]. unfold sums_in_range in HV.
    intros c Hc. split.
    + intros j Hj.
      assert (Hv : Rabs (nth c (nth j (nth b (Version4.v h x) []) []) 0)
                   <= INR C * (X * W))
        by (eapply value_entry_bound; eassumption).
      lra.
    + assert (Ho' : Rabs (nth c (nth t (nth b (Version4.out h T x) []) []) 0)
                    <= INR C * (X * W))
        by (eapply out_entry_bound; eassumption).
      lra.
Qed.

Ltac head_range :=
  unfold head_in_range; repeat split; first [bounded | in_range].

Lemma causal_mask_blocks_future_in_range_witness :
  nth 2 (nth 1 (Version3.wei 3) []) 0 = 0 /\
  nth 2 (nth 1 (nth 0 (Version4.wei head_small 3 x_small) []) []) 0 = 0 /\
  firstn (1 + 1) (nth 0 x_small []) = firstn (1 + 1) (nth 0 x_small' []) /\
  nth 1 (nth 0 (Version4.out head_small 3 x_small) []) []
  = nth 1 (nth 0 (Version4.out head_small 3 x_small') []) [].
Proof.
  destruct causal_mask_blocks_future_in_range as [H3 [H4 Hout]].
  split; [apply H3; lia|].
  split.
  { exact (H4 head_small 2%nat 3%nat 2%nat x_small 8 2 0%nat 1%nat 2%nat
             ltac:(shape) ltac:(shape) ltac:(side) ltac:(side)
             ltac:(head_range) ltac:(side) ltac:(side) ltac:(side)
             ltac:(side)). }
  split; [reflexivity|].
  exact (proj1 (Hout head_small 2%nat 3%nat 2%nat x_small x_small' 8 2
                  0%nat 1%nat
                  ltac:(shape) ltac:(shape) ltac:(shape) ltac:(side)
                  ltac:(side) ltac:(head_range) ltac:(head_range)
                  ltac:(in_range) ltac:(side) ltac:(side)
                  ltac:(reflexivity))).
Defined.

(** In 32-bit floats, with finite inputs and weights: the two inputs agree
    on the positions 0 and 1, the value at position 2 of the first one
    overflows to infinity, and its weight [0] times infinity is [nan], which
    reaches the output at position 1. *)
Lemma future_overflow_reaches_output_f32 :
  firstn 2 (nth 0 F32.x_far []) = firstn 2 (nth 0 F32.x_near []) /\
  option_map (fun o => nth 1 (nth 0 o []) []) (F32.out F32.head_one 3 F32.x_far)
  = Some [F32.nan] /\
  option_map (fun o => nth 1 (nth 0 o []) []) (F32.out F32.head_one 3 F32.x_near)
  = Some [F32.of_Z (10 ^ 10)] /\
  F32.nan <> F32.of_Z (10 ^ 10).
Proof.
  repeat split; try (vm_compute; reflexivity).
  intros H. vm_compute in H. discriminate H.
Qed.

(** C10: at the first time step every version returns its input
    row: for every batch index [b],
    [xbow1[b, 0] = xbow2[b, 0] = xbow3[b, 0] = x[b, 0]]; and in version 4
    the first row of weights is one-hot at position 0, whatever the scores,
    so that [out[b, 0] = v[b, 0]] as long as the inputs and the weights
    keep every value within the range of 32-bit floats. *)
Theorem first_step_reproduces_input_in_range :
  (forall B T C x b, shape3 B T C x -> (b < B)%nat -> (0 < T)%nat ->
     nth 0 (nth b (Version1.xbow1 B T C x) []) [] = nth 0 (nth b x []) [] /\
     nth 0 (nth b (Version2.xbow2 T x) []) [] = nth 0 (nth b x []) [] /\
     nth 0 (nth b (Version3.xbow3 T x) []) [] = nth 0 (nth b x []) []) /\
  (forall h B T C x X W b,
     shape3 B T C x -> Version4.head_shape C h ->
     (0 < Version4.head_size h)%nat -> (0 < C)%nat ->
     head_in_range h C x X W ->
     (b < B)%nat -> (0 < T)%nat ->
     nth 0 (nth b (Version4.wei h T x) []) [] = 1 :: repeat 0 (T - 1) /\
     nth 0 (nth b (Version4.out h T x) []) []
     = nth 0 (nth b (Version4.v h x) []) [] /\
     forall c j, (c < Version4.head_size h)%nat -> (j < T)%nat ->
       2 * Rabs (nth c (nth j (nth b (Version4.v h x) []) []) 0)
       <= f32_max).
Proof.
  destruct first_step_reproduces_input_exact as [H1 H4].
  split; [exact H1|].
  intros h B T C x X W b Hx Hh Hhs HC HR Hb HT.
  destruct (H4 h B T C x b Hx Hh Hhs HC Hb HT) as [Hw Ho].
  split; [exact Hw|]. split; [exact Ho|].
  intros c j Hc Hj.
  pose proof HR as [_ [_ [_ [_ [HV _]]]]]. unfold sums_in_range in HV.
  assert (Hv : Rabs (nth c (nth j (nth b (Version4.v h x) []) []) 0)
               <= INR C * (X * W))
    by (eapply value_entry_bound; eassumption).
  lra.
Qed.

Lemma first_step_reproduces_input_in_range_witness :
  nth 0 (nth 1 (Version1.xbow1 2 3 2 x_small) []) [] = [0; 1] /\
  nth 0 (nth 1 (Version4.out head_small 3 x_small) []) []
  = nth 0 (nth 1 (Version4.v head_small x_small) []) [].
Proof.
  destruct first_step_reproduces_input_in_range as [H1 H4]. split.
  - rewrite (proj1 (H1 2%nat 3%nat 2%nat x_small 1%nat
                       ltac:(shape) ltac:(lia) ltac:(lia))).
    reflexivity.
  - exact (proj1 (proj2 (H4 head_small 2%nat 3%nat 2%nat x_small 8 2 1%nat
                     ltac:(shape) ltac:(shape) ltac:(side) ltac:(side)
                     ltac:(head_range) ltac:(side) ltac:(side)))).
Defined.

(** In 32-bit floats the first output row is [nan], not the first value
    row [1e10], once a later value has overflowed. *)
Lemma first_output_not_first_value_f32 :
  nth 0 (nth 0 (F32.v F32.head_one F32.x_far) []) [] = [F32.of_Z (10 ^ 10)] /\
  option_map (fun o => nth 0 (nth 0 o []) []) (F32.out F32.head_one 3 F32.x_far)
  = Some [F32.nan] /\
  F32.nan <> F32.of_Z (10 ^ 10).
Proof.
  repeat split; try (vm_compute; reflexivity).
  intros H. vm_compute in H. discriminate H.
Qed.

(** * The order of scaling, masking and softmax *)
Section MaskThenScale.

Lemma xscale_masked_row (c : R) (row : vec) (mrow : list bool) :
  map (xscale c)
      (Torch.zip_with (fun a (b : bool) => if b then NegInf else Fin a)
                      row mrow)
  = Torch.zip_with (fun a (b : bool) => if b then NegInf else Fin a)
                   (map (fun a => a * c) row) mrow.
Proof.
  unfold Torch.zip_with. revert mrow.
  induction row as [|a row IH]; intros [|b mrow]; try reflexivity.
  simpl. rewrite IH. now destruct b.
Qed.

Lemma xscale_masked_fill (c : R) (m : matrix) (mask : list (list bool)) :
  map (map (xscale c)) (Torch.masked_fill m mask NegInf)
  = Torch.masked_fill (Torch.mul_scalar2 m c) mask NegInf.
Proof.
  unfold Torch.masked_fill, Torch.mul_scalar2, Torch.zip_with. revert mask.
  induction m as [|row m IH]; intros [|mrow mask]; try reflexivity.
  simpl. rewrite IH. f_equal. apply xscale_masked_row.
Qed.

(** Masking before scaling gives the weights of the notebook. *)
Lemma mask_scale_commute (h : Version4.head) (T : nat) (x : tensor3) :
  Version4.wei h T x = weights_mask_scale_softmax h T x.
Proof.
  unfold weights_mask_scale_softmax, Version4.wei, Version4.wei_masked,
    Version4.wei_scaled, Version4.scale, Version4.tril, causal_mask,
    Torch.masked_fill3, Torch.mul_scalar.
  f_equal. rewrite !map_map. apply map_ext. intros m.
  symmetry. apply xscale_masked_fill.
Qed.

End MaskThenScale.

(** C6: in version 4 the raw scores [q @ k^T] are multiplied by
    [head_size ** -0.5], then the future positions are set to minus
    infinity, then softmax is applied.  So, within the range of 32-bit
    floats, with [s m] the raw score of the query of [t] against the key of
    [m], the weight [wei[b, t, j]] is
    [exp (s j * scale) / (exp (s 0 * scale) + .. + exp (s t * scale))] for
    [j <= t] and [0] for [j > t].  Masking first and scaling the masked
    scores afterwards gives the same weights; scaling after the softmax
    gives other weights as soon as [head_size] is at least 2. *)
Theorem scale_mask_softmax_weights :
  (forall h B T C x X W b t j,
     shape3 B T C x -> Version4.head_shape C h ->
     (0 < Version4.head_size h)%nat -> (0 < C)%nat ->
     head_in_range h C x X W ->
     (b < B)%nat -> (t < T)%nat -> (j < T)%nat ->
     nth j (nth t (nth b (Version4.wei h T x) []) []) 0
     = if (j <=? t)%nat
       then exp (bigsum (fun i =>
                   nth i (nth t (nth b (Version4.q h x) []) []) 0
                   * nth i (nth j (nth b (Version4.k h x) []) []) 0)
                   (Version4.head_size h)
                 * Rpower (INR (Version4.head_size h)) (- 0.5))
            / bigsum (fun m =>
                exp (bigsum (fun i =>
                       nth i (nth t (nth b (Version4.q h x) []) []) 0
                       * nth i (nth m (nth b (Version4.k h x) []) []) 0)
                       (Version4.head_size h)
                     * Rpower (INR (Version4.head_size h)) (- 0.5)))
                (t + 1)
       else 0) /\
  (forall h T x, (0 < Version4.head_size h)%nat ->
     Version4.wei h T x = weights_mask_scale_softmax h T x) /\
  (forall h B T C x,
     shape3 B T C x -> Version4.head_shape C h ->
     (2 <= Version4.head_size h)%nat -> (0 < C)%nat ->
     (0 < B)%nat -> (0 < T)%nat ->
     Version4.wei h T x <> weights_mask_softmax_scale h T x).
Proof.
  split; [|split; [intros h T x _; apply mask_scale_commute
                  | apply post_softmax_scaling_differs]].
  intros h B T C x X W b t j Hx Hh Hhs HC HR Hb Ht Hj.
  rewrite (nth_wei4 h B T C x b t) by assumption.
  assert (Hlen : length (prefix_scores h t (firstn (S t) (nth b x [])))
                 = S t)
    by (unfold prefix_scores; now rewrite length_map, length_seq).
  destruct (Nat.leb_spec j t) as [Hjt|Hjt].
  - rewrite app_nth1 by (rewrite length_softmax_fin; lia).
    rewrite nth_softmax_fin by lia.
    rewrite (sumR_as_bigsum _ exp), Hlen, Nat.add_1_r.
    rewrite (prefix_scores_scaled h B T C x) by (assumption || lia).
    rewrite (wei_scaled_entry h B T C x) by assumption.
    f_equal. apply bigsum_ext. intros m Hm.
    rewrite (prefix_scores_scaled h B T C x) by (assumption || lia).
    now rewrite (wei_scaled_entry h B T C x) by (assumption || lia).
  - rewrite app_nth2 by (rewrite length_softmax_fin; lia).
    apply nth_repeat.
Qed.

Lemma scale_mask_softmax_weights_witness :
  nth 2 (nth 1 (nth 0 (Version4.wei head_small 3 x_small) []) []) 0 = 0 /\
  Version4.wei head_small 3 x_small
  = weights_mask_scale_softmax head_small 3 x_small /\
  Version4.wei head_small 3 x_small
  <> weights_mask_softmax_scale head_small 3 x_small.
Proof.
  destruct scale_mask_softmax_weights as [H1 [H2 H3]]. split; [|split].
  - exact (H1 head_small 2%nat 3%nat 2%nat x_small 8 2 0%nat 1%nat 2%nat
             ltac:(shape) ltac:(shape) ltac:(side) ltac:(side)
             ltac:(head_range) ltac:(side) ltac:(side) ltac:(side)).
  - exact (H2 head_small 3%nat x_small ltac:(simpl; lia)).
  - exact (H3 head_small 2%nat 3%nat 2%nat x_small
             ltac:(shape) ltac:(shape) ltac:(side) ltac:(side)
             ltac:(side) ltac:(side)).
Defined.

(** Another order, the same weights: on the small input, masking the raw
    scores first and scaling them afterwards gives exactly [wei]. *)
Lemma mask_then_scale_same_weights :
  Version4.wei head_small 3 x_small
  = weights_mask_scale_softmax head_small 3 x_small.
Proof. apply mask_scale_commute. Qed.

(** * Further properties, within the range of 32-bit floats *)



(** X6: for a vector [x] whose multiples by 5 stay within the range of
    32-bit floats, every row of [x_softmaxes] is a probability distribution
    (nonnegative entries that sum to one), and the weight it gives to a
    largest entry of [x] grows with the factor: it is largest in the first
    row (factor 5) and does not increase down the rows, so the softmax
    tends to a one-hot vector as the variance of its input grows. *)
Theorem softmax_sharpens_in_range (x : vec) (m : nat) (M : R) :
  (m < length x)%nat -> Forall (fun a => a <= nth m x 0) x ->
  Forall (fun a => Rabs a <= M) x -> 2 * (5 * M) <= f32_max ->
  (forall i, (i < 5)%nat ->
     Forall (fun a => 0 <= a) (nth i (Scaling.x_softmaxes x) []) /\
     Torch.sumR (nth i (Scaling.x_softmaxes x) []) = 1) /\
  (forall i i', (i <= i')%nat -> (i' < 5)%nat ->
     nth m (nth i' (Scaling.x_softmaxes x) []) 0
     <= nth m (nth i (Scaling.x_softmaxes x) []) 0).
Proof.
  intros Hm Hmax HM H5.
  destruct (softmax_sharpens_with_scale_exact x m Hm Hmax) as [H1 H2].
  split; [|exact H2]. intros i Hi. destruct (H1 i Hi) as [Hpos Hsum].
  split; [|exact Hsum].
  eapply Forall_impl; [|exact Hpos]. intros a Ha. lra.
Qed.

Lemma softmax_sharpens_in_range_witness :
  nth 2 (nth 3 (Scaling.x_softmaxes [1; 2; 4]) []) 0
  <= nth 2 (nth 0 (Scaling.x_softmaxes [1; 2; 4]) []) 0.
Proof.
  assert (Hmax : Forall (fun a => a <= nth 2 [1; 2; 4] 0) [1; 2; 4])
    by (repeat constructor; simpl; lra).
  assert (HM : Forall (fun a => Rabs a <= 4) [1; 2; 4])
    by (repeat (apply Forall_cons || apply Forall_nil);
        apply Rabs_le; lra).
  exact (proj2 (softmax_sharpens_in_range [1; 2; 4] 2 4
    ltac:(simpl; lia) Hmax HM ltac:(unfold f32_max; lra))
    0%nat 3%nat ltac:(lia) ltac:(lia)).
Defined.

(** X11: as long as the inputs and the weights keep every value within the
    range of 32-bit floats, the output of the head is scaled dot-product
    attention over the visible positions: with [s j] the scaled score of
    position [t] against position [j], [out[b, t, c]] is the sum over
    [j <= t] of [exp (s j) * v[b, j, c]] divided by the sum over [j <= t] of
    [exp (s j)]; the scores, the values at all positions and the output stay
    in the range. *)
Theorem attention_formula_in_range (h : Version4.head) (B T C : nat)
        (x : tensor3) (X W : R) (b t c : nat) :
  shape3 B T C x -> Version4.head_shape C h ->
  (0 < Version4.head_size h)%nat -> (0 < C)%nat ->
  head_in_range h C x X W ->
  (b < B)%nat -> (t < T)%nat -> (c < Version4.head_size h)%nat ->
  nth c (nth t (nth b (Version4.out h T x) []) []) 0
  = bigsum (fun j =>
              exp (nth j (nth t (nth b (Version4.wei_scaled h x) []) []) 0)
              * nth c (nth j (nth b (Version4.v h x) []) []) 0) (t + 1)
    / bigsum (fun j =>
                exp (nth j (nth t (nth b (Version4.wei_scaled h x) []) []) 0))
             (t + 1) /\
  (forall j, (j < T)%nat ->
     2 * Rabs (nth j (nth t (nth b (Version4.wei_scaled h x) []) []) 0)
     <= f32_max /\
     2 * Rabs (nth c (nth j (nth b (Version4.v h x) []) []) 0) <= f32_max) /\
  2 * Rabs (nth c (nth t (nth b (Version4.out h T x) []) []) 0) <= f32_max.
Proof.
  intros Hx Hh Hhs HC HR Hb Ht Hc.
  pose proof HR as [_ [_ [_ [_ [HV HS]]]]]. unfold sums_in_range in HV, HS.
  split; [now apply (attention_formula_exact h B T C x)|]. split.
  - intros j Hj. split.
    + assert (Hs : Rabs (nth j (nth t (nth b (Version4.wei_scaled h x) [])
                                   []) 0)
                   <= INR (Version4.head_size h)
                      * ((INR C * (X * W)) * (INR C * (X * W))))
        by (eapply score_entry_bound; eassumption).
      lra.
    + assert (Hv : Rabs (nth c (nth j (nth b (Version4.v h x) []) []) 0)
                   <= INR C * (X * W))
        by (eapply value_entry_bound; eassumption).
      lra.
  - assert (Ho : Rabs (nth c (nth t (nth b (Version4.out h T x) []) []) 0)
                 <= INR C * (X * W))
      by (eapply out_entry_bound; eassumption).
    lra.
Qed.

Lemma attention_formula_in_range_witness :
  2 * Rabs (nth 0 (nth 0 (nth 1 (Version4.out head_small 3 x_small) []) []) 0)
  <= f32_max.
Proof.
  exact (proj2 (proj2 (attention_formula_in_range head_small 2 3 2 x_small
    8 2 1 0 0 ltac:(shape) ltac:(shape) ltac:(side) ltac:(side)
    ltac:(head_range) ltac:(side) ltac:(side) ltac:(side)))).
Defined.

(** X12: as long as the inputs and the weights keep every value within the
    range of 32-bit floats, every entry of [out[b, t]] is a weighted mean
    of the values at the positions [0 .. t]: it lies between any bounds
    that hold for [v[b, 0, c] .. v[b, t, c]]. *)
Theorem attention_output_bounds_in_range (h : Version4.head) (B T C : nat)
        (x : tensor3) (X W : R) (b t c : nat) (lo hi : R) :
  shape3 B T C x -> Version4.head_shape C h ->
  (0 < Version4.head_size h)%nat -> (0 < C)%nat ->
  head_in_range h C x X W ->
  (b < B)%nat -> (t < T)%nat -> (c < Version4.head_size h)%nat ->
  (forall j, (j <= t)%nat ->
     lo <= nth c (nth j (nth b (Version4.v h x) []) []) 0 <= hi) ->
  lo <= nth c (nth t (nth b (Version4.out h T x) []) []) 0 <= hi /\
  forall j, (j < T)%nat ->
    2 * Rabs (nth c (nth j (nth b (Version4.v h x) []) []) 0) <= f32_max.
Proof.
  intros Hx Hh Hhs HC HR Hb Ht Hc Hv.
  split; [now apply (attention_output_bounds_exact h B T C x)|].
  intros j Hj.
  pose proof HR as [_ [_ [_ [_ [HV _]]]]]. unfold sums_in_range in HV.
  assert (Hvj : Rabs (nth c (nth j (nth b (Version4.v h x) []) []) 0)
                <= INR C * (X * W))
    by (eapply value_entry_bound; eassumption).
  lra.
Qed.

Lemma attention_output_bounds_in_range_witness :
  0 <= nth 1 (nth 2 (nth 1 (Version4.out head_small 3 x_small) []) []) 0 <= 4.
Proof.
  assert (Hv : forall j, (j <= 2)%nat ->
            0 <= nth 1 (nth j (nth 1 (Version4.v head_small x_small) []) []) 0
              <= 4).
  { intros j Hj. destruct j as [|[|[|j']]]; [| | |lia];
      cbv - [Rplus Rmult Rdiv Rinv INR IZR Rle]; lra. }
  exact (proj1 (attention_output_bounds_in_range head_small 2 3 2 x_small
           8 2 1 2 1 0 4
           ltac:(shape) ltac:(shape) ltac:(side) ltac:(side)
           ltac:(head_range) ltac:(side) ltac:(side) ltac:(side) Hv)).
Defined.

(** X14: for inputs and weights that keep the scores within the range of
    32-bit floats, [masked_fill] keeps the shape [(B, T, T)] of the scores,
    leaves the scores at the visible positions as they are (finite numbers)
    and puts minus infinity at the later ones: [wei[b, t, j]] after masking
    is the scaled score for [j <= t] and [-inf] for [j > t]. *)
Theorem masked_scores_entries (h : Version4.head) (B T C : nat)
        (x : tensor3) (X W : R) :
  shape3 B T C x -> Version4.head_shape C h ->
  (0 < Version4.head_size h)%nat -> (0 < C)%nat ->
  head_in_range h C x X W ->
  shape3 B T T (Version4.wei_masked h T x) /\
  forall b t j, (b < B)%nat -> (t < T)%nat -> (j < T)%nat ->
    nth j (nth t (nth b (Version4.wei_masked h T x) []) []) (Fin 0)
    = (if (j <=? t)%nat
       then Fin (nth j (nth t (nth b (Version4.wei_scaled h x) []) []) 0)
       else NegInf) /\
    2 * Rabs (nth j (nth t (nth b (Version4.wei_scaled h x) []) []) 0)
    <= f32_max.
Proof.
  intros Hx Hh Hhs HC HR.
  pose proof (shape_wei_scaled h B T C x Hx Hh Hhs HC) as Hs.
  assert (Hrow : forall b t, (b < B)%nat -> (t < T)%nat ->
            nth t (nth b (Version4.wei_masked h T x) []) []
            = map Fin (firstn (S t)
                         (nth t (nth b (Version4.wei_scaled h x) []) []))
              ++ repeat NegInf (T - S t)).
  { intros b t Hb Ht. pose proof (shape3_nth B T T _ b Hs Hb) as Hsb.
    unfold Version4.wei_masked, Torch.masked_fill3, Version4.tril.
    rewrite (nth_map_in _ _ _ _ []) by (destruct Hs; lia).
    rewrite masked_fill_rows by exact Hsb. now rewrite nth_map_seq. }
  assert (Hlen : forall b t, (b < B)%nat -> (t < T)%nat ->
            length (firstn (S t)
                      (nth t (nth b (Version4.wei_scaled h x) []) []))
            = S t).
  { intros b t Hb Ht. pose proof (shape3_nth B T T _ b Hs Hb) as Hsb.
    rewrite length_firstn, (shape2_nth T T _ t Hsb Ht). lia. }
  split.
  - split.
    + unfold Version4.wei_masked, Torch.masked_fill3.
      rewrite length_map. now destruct Hs.
    + apply (Forall_nth_intro _ _ []). intros b Hb.
      unfold Version4.wei_masked, Torch.masked_fill3 in Hb.
      rewrite length_map in Hb. destruct Hs as [HB Hrows].
      rewrite HB in Hb. apply shape2_intro.
      * pose proof (shape3_nth B T T _ b (conj HB Hrows) Hb) as Hsb.
        unfold Version4.wei_masked, Torch.masked_fill3, Version4.tril.
        rewrite (nth_map_in _ _ _ _ []) by lia.
        rewrite masked_fill_rows by exact Hsb.
        now rewrite length_map, length_seq.
      * intros t Ht. rewrite Hrow by assumption.
        rewrite length_app, length_map, repeat_length.
        rewrite (Hlen b t) by assumption. lia.
  - intros b t j Hb Ht Hj. split.
    + rewrite Hrow by assumption.
      destruct (Nat.leb_spec j t) as [Hjt|Hjt].
      * rewrite app_nth1 by (rewrite length_map, Hlen by assumption; lia).
        rewrite (nth_map_in _ _ _ _ 0) by (rewrite Hlen by assumption; lia).
        rewrite nth_firstn.
        destruct (Nat.ltb_spec j (S t)); [reflexivity | lia].
      * rewrite app_nth2 by (rewrite length_map, Hlen by assumption; lia).
        rewrite length_map, Hlen by assumption.
        apply nth_repeat_in. lia.
    + pose proof HR as [_ [_ [_ [_ [_ HS]]]]]. unfold sums_in_range in HS.
      assert (Hs' : Rabs (nth j (nth t (nth b (Version4.wei_scaled h x) [])
                                    []) 0)
                    <= INR (Version4.head_size h)
                       * ((INR C * (X * W)) * (INR C * (X * W))))
        by (eapply score_entry_bound; eassumption).
      lra.
Qed.

Lemma masked_scores_entries_witness :
  nth 2 (nth 1 (nth 0 (Version4.wei_masked head_small 3 x_small) []) [])
      (Fin 0) = NegInf /\
  nth 0 (nth 1 (nth 0 (Version4.wei_masked head_small 3 x_small) []) [])
      (Fin 0)
  = Fin (nth 0 (nth 1 (nth 0 (Version4.wei_scaled head_small x_small) []) [])
             0).
Proof.
  pose proof (proj2 (masked_scores_entries head_small 2 3 2 x_small 8 2
    ltac:(shape) ltac:(shape) ltac:(side) ltac:(side) ltac:(head_range)))
    as H.
  split.
  - exact (proj1 (H 0%nat 1%nat 2%nat ltac:(lia) ltac:(lia) ltac:(lia))).
  - exact (proj1 (H 0%nat 1%nat 0%nat ltac:(lia) ltac:(lia) ltac:(lia))).
Defined.

(** X18: while the sums stay within the range of 32-bit floats, each
    average of version 1 lies between any bounds that hold for the entries
    it averages: if [lo <= x[b, s, c] <= hi] for all [s <= t] then
    [lo <= xbow1[b, t, c] <= hi]. *)
Theorem xbow1_between_bounds_in_range (B T C : nat) (x : tensor3)
        (M : R) (b t c : nat) (lo hi : R) :
  shape3 B T C x -> bounded3 M x -> sums_in_range T M ->
  (b < B)%nat -> (t < T)%nat -> (c < C)%nat ->
  (forall s, (s <= t)%nat ->
     lo <= nth c (nth s (nth b x []) []) 0 <= hi) ->
  lo <= nth c (nth t (nth b (Version1.xbow1 B T C x) []) []) 0 <= hi /\
  forall n, (n <= t + 1)%nat ->
    2 * Rabs (bigsum (fun s => nth c (nth s (nth b x []) []) 0) n)
    <= f32_max.
Proof.
  intros Hx HM HR Hb Ht Hc Hbound. split.
  - now apply (xbow1_between_bounds_exact B T C x).
  - intros n Hn. now apply (prefix_sums_in_range M B T C x b t c n).
Qed.

Lemma xbow1_between_bounds_in_range_witness :
  1 <= nth 0 (nth 2 (nth 0 (Version1.xbow1 2 3 2 x_small) []) []) 0 <= 5.
Proof.
  assert (Hb : forall s, (s <= 2)%nat ->
            1 <= nth 0 (nth s (nth 0 x_small []) []) 0 <= 5).
  { intros s Hs. destruct s as [|[|[|s']]]; [| | |lia]; simpl; lra. }
  exact (proj1 (xbow1_between_bounds_in_range 2 3 2 x_small 6 0 2 0 1 5
           ltac:(shape) ltac:(bounded) ltac:(in_range)
           ltac:(side) ltac:(side) ltac:(side) Hb)).
Defined.
